(** * Threshold-aware renormalization-group running (flavio.physics.running.running)

    A shallow embedding of the stepping driver of [running.py]:
    [rg_evolve], [rg_evolve_sm], the cached [_rg_evolve_sm] and [get_alpha].

    Python floats are IEEE-754 binary64 values.  The driver never computes
    with a scale: it only compares scales and selects one of two with
    [max]/[min].  Scales are therefore modelled by the Standard Library's
    [spec_float], whose comparison [SFcompare] is the IEEE comparison; the
    numerical work is done by the external solver [odeint], which is an
    uninterpreted member of the interface [Externals]. *)

From Stdlib Require Import ZArith List Bool Lia String.
From Stdlib Require Import Floats.SpecFloat Floats.PrimFloat Floats.FloatOps.
From ExtLib Require Import Structures.Monad Structures.MonadExc.
Import ListNotations.
Import MonadNotation.
Local Open Scope monad_scope.
Local Open Scope Z_scope.

Set Warnings "-inexact-float".

(** ** Python floats *)

Definition float := spec_float.

(** [a == b], [a < b], [a <= b], [a > b], [a >= b] on floats. *)
Definition py_eq (a b : float) : bool := SFeqb a b.
Definition py_lt (a b : float) : bool := SFltb a b.
Definition py_le (a b : float) : bool := SFleb a b.
Definition py_gt (a b : float) : bool := py_lt b a.
Definition py_ge (a b : float) : bool := py_le b a.

(** The builtins [max(a, b)] and [min(a, b)]: the first argument is kept
    unless the second compares strictly greater (resp. smaller). *)
Definition py_max (a b : float) : float := if py_gt b a then b else a.
Definition py_min (a b : float) : float := if py_lt b a then b else a.

(** The literal [0.1] and [np.inf]. *)
Definition lit_0_1 : float := Eval cbv in Prim2SF 0.1%float.
Definition np_inf : float := S754_infinity false.
Definition lit_zero : float := S754_zero false.

(** A float that is neither a NaN nor an infinity. *)
Definition finite (a : float) : bool :=
  match a with
  | S754_zero _ | S754_finite _ _ _ => true
  | S754_infinity _ | S754_nan => false
  end.

Definition float_eq_dec (a b : float) : {a = b} + {a <> b}.
Proof.
  decide equality; try apply Bool.bool_dec;
    try apply Z.eq_dec; apply Pos.eq_dec.
Defined.

(** ** State vectors and the external collaborators *)

(** A state vector: [tuple(initial_condition)], a row of the solver's output. *)
Definition vector := list float.

Definition vector_eq_dec : forall a b : vector, {a = b} + {a <> b} :=
  list_eq_dec float_eq_dec.

(** What the driver consumes from outside: the right-hand sides, the
    selectors [derivative_nf] (Python callables, hashed and compared by identity
    when they are part of a cache key) and scipy's [odeint] evaluated at the two
    points [[scale_in, scale_out]], which either raises or returns the two rows
    of the solution. *)
Class Externals := {
  solver_error : Type;
  derivative : Type;
  selector : Type;
  selector_eq_dec : forall a b : selector, {a = b} + {a <> b};
  select : selector -> Z -> derivative;
  odeint : derivative -> vector -> float * float -> solver_error + vector * vector
}.

(** ** Exceptions and the log of solver invocations *)

Inductive exn {X : Externals} : Type :=
| ValueError (msg : string)
| KeyError
| UnboundLocalError
| SolverError (e : solver_error).
Arguments ValueError {X} msg.
Arguments KeyError {X}.
Arguments UnboundLocalError {X}.
Arguments SolverError {X} e.

(** One invocation of the Segment Integrator [rg_evolve]. *)
Record call {X : Externals} : Type := Call {
  call_initial : vector;
  call_rhs : derivative;
  call_from : float;
  call_to : float
}.
Arguments Call {X} _ _ _ _.

(** Computations that may raise and that record, in order, the solver
    invocations they made (kept also when they raise). *)
Definition W {X : Externals} (A : Type) : Type := (exn + A) * list call.

#[global] Instance Monad_W {X : Externals} : Monad W := {
  ret := fun A (a : A) => (inr a, []);
  bind := fun A B (c : W A) (k : A -> W B) =>
    match c with
    | (inl e, l) => (inl e, l)
    | (inr a, l) => let (r, l') := k a in (r, l ++ l')
    end
}.

#[global] Instance Exc_W {X : Externals} : MonadExc exn W := {
  raise := fun A (e : exn) => (inl e, []);
  catch := fun A (c : W A) (h : exn -> W A) =>
    match c with
    | (inl e, l) => let (r, l') := h e in (r, l ++ l')
    | ok => ok
    end
}.

Definition result {X : Externals} {A} (c : W A) : exn + A := fst c.
Definition calls {X : Externals} {A} (c : W A) : list call := snd c.

(** ** Dictionaries *)

(** A dict literal as an association list; [d[k]] raises [KeyError]. *)
Fixpoint lookup {K A} (eqb : K -> K -> bool) (d : list (K * A)) (k : K) : option A :=
  match d with
  | [] => None
  | (k', a) :: d' => if eqb k k' then Some a else lookup eqb d' k
  end.

Definition getitem {X : Externals} {K A} (eqb : K -> K -> bool)
    (d : list (K * A)) (k : K) : W A :=
  match lookup eqb d k with
  | Some a => ret a
  | None => raise KeyError
  end.

(** Keys of the parameter dict: a string such as ['alpha_s'] or a pair such
    as [('mass','c')]. *)
Inductive par_key := Name (n : string) | Tagged (a b : string).

Definition par_key_eqb (a b : par_key) : bool :=
  match a, b with
  | Name n, Name m => String.eqb n m
  | Tagged a1 a2, Tagged b1 b2 => String.eqb a1 b1 && String.eqb a2 b2
  | _, _ => false
  end.

Definition params := list (par_key * float).

(** ** The Segment Integrator *)

Section Driver.
Context {X : Externals}.

(** [rg_evolve]: [sol = odeint(derivative, initial_condition, [scale_in, scale_out])],
    [return sol[1]]. *)
Definition rg_evolve (initial_condition : vector) (d : derivative)
    (scale_in scale_out : float) : W vector :=
  (match odeint d initial_condition (scale_in, scale_out) with
   | inl e => inl (SolverError e)
   | inr sol => inr (snd sol)
   end,
   [Call initial_condition d scale_in scale_out]).

(** ** The threshold-aware driver *)

(** The local variables the two loops update; [sol] is unbound ([None]) until
    the first segment has been integrated. *)
Record locals := Locals {
  initial_nf : vector;
  scale_in_nf : float;
  sol : option vector
}.

(** A [for] loop whose body may [return]: [inl v] is a return from within the
    loop, [inr l] is falling out of the loop with locals [l]. *)
Fixpoint for_each (body : Z -> locals -> W (vector + locals))
    (nfs : list Z) (l : locals) : W (vector + locals) :=
  match nfs with
  | [] => ret (inr l)
  | nf :: rest =>
      r <- body nf l ;;
      match r with
      | inl v => ret (inl v)
      | inr l' => for_each body rest l'
      end
  end.

Section Body.
Variables (mc mb mt : float) (derivative_nf : selector) (scale_in scale_out : float).

Definition thresholds : list (Z * float) :=
  [(3, lit_0_1); (4, mc); (5, mb); (6, mt); (7, np_inf)].

(** Body of the loop [for nf in (6,5,4,3)] (running down). *)
Definition down_body (nf : Z) (l : locals) : W (vector + locals) :=
  th <- getitem Z.eqb thresholds nf ;;
  if py_le scale_in th then ret (inr l)
  else
    th <- getitem Z.eqb thresholds nf ;;
    let scale_stop := py_max th scale_out in
    s <- rg_evolve (initial_nf l) (select derivative_nf nf) (scale_in_nf l) scale_stop ;;
    if py_eq scale_stop scale_out then ret (inl s)
    else
      th <- getitem Z.eqb thresholds nf ;;
      ret (inr (Locals s th (Some s))).

(** The guard [nf < 6 and scale_in >= thresholds[nf+1]] of the up loop. *)
Definition up_skip (nf : Z) : W bool :=
  if nf <? 6 then
    th <- getitem Z.eqb thresholds (nf + 1) ;;
    ret (py_ge scale_in th)
  else ret false.

(** Body of the loop [for nf in (3,4,5,6)] (running up). *)
Definition up_body (nf : Z) (l : locals) : W (vector + locals) :=
  skip <- up_skip nf ;;
  if (skip : bool) then ret (inr l)
  else
    th <- getitem Z.eqb thresholds (nf + 1) ;;
    let scale_stop := py_min th scale_out in
    s <- rg_evolve (initial_nf l) (select derivative_nf nf) (scale_in_nf l) scale_stop ;;
    if py_eq scale_stop scale_out then ret (inl s)
    else
      th <- getitem Z.eqb thresholds nf ;;
      ret (inr (Locals s th (Some s))).

(** Which [return] statement produced the value. *)
Inductive exit_point := In_loop | After_loops.

(** The final [return sol]: a name error when no segment was integrated. *)
Definition return_sol (l : option vector) : W (exit_point * vector) :=
  match l with
  | Some s => ret (After_loops, s)
  | None => raise UnboundLocalError
  end.

Definition leave (r : vector + locals) : W (exit_point * vector) :=
  match r with
  | inl v => ret (In_loop, v)
  | inr l => return_sol (sol l)
  end.

(** The function under the decorator, with the exit point made visible. *)
Definition _rg_evolve_sm_traced (initial_condition : vector)
    : W (exit_point * vector) :=
  if py_gt scale_in scale_out then
    r <- for_each down_body [6; 5; 4; 3] (Locals initial_condition scale_in None) ;;
    leave r
  else if py_lt scale_in scale_out then
    r <- for_each up_body [3; 4; 5; 6] (Locals initial_condition scale_in None) ;;
    leave r
  else return_sol None.

End Body.

(** ** The memoization layer *)

(** The positional arguments of [_rg_evolve_sm], which form the cache key. *)
Record key := Key {
  k_initial : vector;
  k_mc : float;
  k_mb : float;
  k_mt : float;
  k_rhs : selector;
  k_in : float;
  k_out : float
}.

Definition key_eq_dec (a b : key) : {a = b} + {a <> b}.
Proof.
  decide equality; try apply float_eq_dec;
    try apply selector_eq_dec; apply vector_eq_dec.
Defined.

Definition key_eqb (a b : key) : bool := if key_eq_dec a b then true else false.

(** [_rg_evolve_sm.__wrapped__]: the undecorated function of the key. *)
Definition _rg_evolve_sm_wrapped (k : key) : W vector :=
  r <- _rg_evolve_sm_traced (k_mc k) (k_mb k) (k_mt k) (k_rhs k)
         (k_in k) (k_out k) (k_initial k) ;;
  ret (snd r).

(** The cache: entries from most to least recently used. *)
Definition cache := list (key * vector).

Definition cache_remove (k : key) (c : cache) : cache :=
  filter (fun e => negb (key_eqb k (fst e))) c.

(** Modelled from the spec: the decorator [functools.lru_cache], whose code is
    not among the sources of this repository (only its use
    [@lru_cache(maxsize=32)] is).  Keys are compared as exact values.  A hit returns the stored value without calling the
    function and makes the entry the most recently used; a miss calls the
    function, and when it returns (an exception stores nothing) stores the
    value, after dropping the least recently used entry when the cache already
    holds [maxsize] entries. *)
Definition lru_cache (maxsize : nat) (f : key -> W vector) (k : key) (c : cache)
    : W vector * cache :=
  match lookup key_eqb c k with
  | Some v => (ret v, (k, v) :: cache_remove k c)
  | None =>
      let r := f k in
      match result r with
      | inl _ => (r, c)
      | inr v =>
          (r, (k, v) :: (if (List.length c <? maxsize)%nat then c else removelast c))
      end
  end.

Definition maxsize : nat := 32.

(** The decorated [_rg_evolve_sm]. *)
Definition _rg_evolve_sm (initial_condition : vector) (mc mb mt : float)
    (derivative_nf : selector) (scale_in scale_out : float) (c : cache)
    : W vector * cache :=
  lru_cache maxsize _rg_evolve_sm_wrapped
    (Key initial_condition mc mb mt derivative_nf scale_in scale_out) c.

(** Computations that also read and update the process-wide cache. *)
Definition M (A : Type) : Type := cache -> W A * cache.

#[global] Instance Monad_M : Monad M := {
  ret := fun A (a : A) c => (ret a, c);
  bind := fun A B (m : M A) (k : A -> M B) c =>
    match m c with
    | ((inl e, l), c') => ((inl e, l), c')
    | ((inr a, l), c') =>
        match k a c' with
        | ((r, l'), c'') => ((r, l ++ l'), c'')
        end
    end
}.

Definition lift {A} (w : W A) : M A := fun c => (w, c).

Definition mass (q : string) : par_key := Tagged "mass" q.

Definition below_strange : string :=
  "RG evolution below the strange threshold not implemented.".

(** [rg_evolve_sm]. *)
Definition rg_evolve_sm (initial_condition : vector) (par : params)
    (derivative_nf : selector) (scale_in scale_out : float) : M vector :=
  if py_eq scale_in scale_out then ret initial_condition
  else if py_lt scale_out lit_0_1 then lift (raise (ValueError below_strange))
  else
    mc <- lift (getitem par_key_eqb par (mass "c")) ;;
    mb <- lift (getitem par_key_eqb par (mass "b")) ;;
    mt <- lift (getitem par_key_eqb par (mass "t")) ;;
    _rg_evolve_sm initial_condition mc mb mt derivative_nf scale_in scale_out.

(** [get_alpha]; the result dict is the list of its items. *)
Definition get_alpha (betafunctions_qcd_qed_nf : selector) (par : params)
    (scale : float) : M (list (string * float)) :=
  a_s <- lift (getitem par_key_eqb par (Name "alpha_s")) ;;
  a_e <- lift (getitem par_key_eqb par (Name "alpha_e")) ;;
  let alpha_in := [a_s; a_e] in
  scale_in <- lift (getitem par_key_eqb par (mass "Z")) ;;
  alpha_out <- rg_evolve_sm alpha_in par betafunctions_qcd_qed_nf scale_in scale ;;
  ret (combine ["alpha_s"; "alpha_e"]%string alpha_out).

End Driver.

Arguments py_eq : simpl never.
Arguments py_lt : simpl never.
Arguments py_le : simpl never.
Arguments py_gt : simpl never.
Arguments py_ge : simpl never.
Arguments py_max : simpl never.
Arguments py_min : simpl never.

(** ** Concrete scales and parameters *)

Definition lit_1_27 : float := Eval cbv in Prim2SF 1.27%float.
Definition lit_4_18 : float := Eval cbv in Prim2SF 4.18%float.
Definition lit_173 : float := Eval cbv in Prim2SF 173.0%float.
Definition lit_91_1876 : float := Eval cbv in Prim2SF 91.1876%float.
Definition lit_5 : float := Eval cbv in Prim2SF 5.0%float.
Definition lit_0_05 : float := Eval cbv in Prim2SF 0.05%float.
Definition lit_0_5 : float := Eval cbv in Prim2SF 0.5%float.
Definition lit_2 : float := Eval cbv in Prim2SF 2.0%float.
Definition lit_3 : float := Eval cbv in Prim2SF 3.0%float.
Definition lit_8 : float := Eval cbv in Prim2SF 8.0%float.
Definition lit_10 : float := Eval cbv in Prim2SF 10.0%float.
Definition lit_0_1185 : float := Eval cbv in Prim2SF 0.1185%float.
Definition lit_alpha_e : float := Eval cbv in Prim2SF (1 / 127.9)%float.

(** The parameter set of the concrete scenario. *)
Definition par_scenario : params :=
  [(Name "alpha_s", lit_0_1185); (Name "alpha_e", lit_alpha_e);
   (mass "Z", lit_91_1876);
   (mass "c", lit_1_27); (mass "b", lit_4_18); (mass "t", lit_173)].

(** ** A test double of the collaborators

    Right-hand sides are named by their regime, there is one selector, and the
    solver appends the scale it stopped at to the vector; it raises [nf] when
    asked to integrate the right-hand side of the regime [bad]. *)
Definition Probe (bad : Z) : Externals := {|
  solver_error := Z;
  derivative := Z;
  selector := unit;
  selector_eq_dec := fun a b =>
    match a, b with tt, tt => left eq_refl end;
  select := fun _ nf => nf;
  odeint := fun nf x t =>
    if nf =? bad then inl nf else inr (x, x ++ [snd t])
|}.

(** A second double whose right-hand sides all vanish: the solution is
    constant, and the selector is a natural number. *)
Definition Frozen : Externals := {|
  solver_error := Empty_set;
  derivative := Z;
  selector := nat;
  selector_eq_dec := Nat.eq_dec;
  select := fun _ nf => nf;
  odeint := fun _ x _ => inr (x, x)
|}.

(** Distinct keys for the test double: the initial vector has [i] components,
    and the evolution runs from 2.0 to 3.0 inside regime 4. *)
Definition probe_key (i : nat) : @key (Probe 0) :=
  @Key (Probe 0) (repeat lit_2 i) lit_1_27 lit_4_18 lit_173 tt lit_2 lit_3.

(** ** Vocabulary of the properties *)

(** A NaN compares unordered with everything. *)
Definition is_nan (a : float) : bool :=
  match a with S754_nan => true | _ => false end.

(** The thresholds are in order. *)
Definition well_formed (mc mb mt : float) : bool :=
  py_lt lit_0_1 mc && py_lt mc mb && py_lt mb mt.

(** The scale [s] lies strictly between [thresholds[nf]] and [thresholds[nf+1]]. *)
Definition inside (mc mb mt : float) (nf : Z) (s : float) : bool :=
  match lookup Z.eqb (thresholds mc mb mt) nf,
        lookup Z.eqb (thresholds mc mb mt) (nf + 1) with
  | Some lo, Some hi => py_lt lo s && py_lt s hi
  | _, _ => false
  end.

(** [a], [b] and [c] lie strictly on one side of the threshold [t]. *)
Definition same_side (t a b c : float) : bool :=
  (py_lt a t && py_lt b t && py_lt c t) || (py_lt t a && py_lt t b && py_lt t c).

Definition on_one_side (mc mb mt a b c : float) : bool :=
  same_side lit_0_1 a b c && same_side mc a b c &&
  same_side mb a b c && same_side mt a b c.

(** [b] lies strictly between [a] and [c]. *)
Definition strictly_between (a b c : float) : bool :=
  (py_lt a b && py_lt b c) || (py_lt c b && py_lt b a).

Section Vocabulary.
Context {X : Externals}.

(** The cache key of the concrete scenario. *)
Definition scenario_key (x : vector) (sel : selector) : key :=
  Key x lit_1_27 lit_4_18 lit_173 sel lit_91_1876 lit_5.

Definition succeeded (cl : call) : Prop :=
  exists s, odeint (call_rhs cl) (call_initial cl) (call_from cl, call_to cl) = inr s.

Definition failed_with (cl : call) (e : solver_error) : Prop :=
  odeint (call_rhs cl) (call_initial cl) (call_from cl, call_to cl) = inl e.

(** The logging discipline: a computation ends with a solver error exactly
    when its last solver invocation raised it, and every other invocation
    returned. *)
Definition disciplined {A} (w : W A) : Prop :=
  match result w with
  | inl (SolverError e) =>
      exists pre cl, calls w = pre ++ [cl] /\ Forall succeeded pre /\ failed_with cl e
  | _ => Forall succeeded (calls w)
  end.

Definition keys (c : cache) : list key := map fst c.

(** Every stored value is what the function under the decorator returns. *)
Definition cache_sound (f : key -> W vector) (c : cache) : Prop :=
  forall k v, lookup key_eqb c k = Some v -> result (f k) = inr v.

Definition cache_inv (n : nat) (f : key -> W vector) (c : cache) : Prop :=
  NoDup (keys c) /\ (List.length c <= n)%nat /\ cache_sound f c.

(** A run of calls, by key, of a function decorated with [lru_cache n]. *)
Definition run (n : nat) (f : key -> W vector) (ks : list key) (c : cache) : cache :=
  fold_left (fun c k => snd (lru_cache n f k c)) ks c.

(** The decorated [_rg_evolve_sm] applied to the arguments that make up [k]. *)
Definition cached_call (k : key) (c : cache) : W vector * cache :=
  _rg_evolve_sm (k_initial k) (k_mc k) (k_mb k) (k_mt k) (k_rhs k)
    (k_in k) (k_out k) c.

(** The cache of a process that made the calls [ks], in this order, starting
    with an empty cache. *)
Definition process (ks : list key) : cache :=
  fold_left (fun c k => snd (cached_call k c)) ks [].

(** The driver without its cache: the guards of [rg_evolve_sm] followed by the
    function under the decorator. *)
Definition uncached (x : vector) (mc mb mt : float) (sel : selector)
    (a b : float) : W vector :=
  if py_eq a b then ret x
  else if py_lt b lit_0_1 then raise (ValueError below_strange)
  else _rg_evolve_sm_wrapped (Key x mc mb mt sel a b).

(** The solver composes along a monotone path: integrating to [b] and on to
    [c] gives what integrating to [c] gives, failures included. *)
Definition composable : Prop :=
  forall (d : derivative) (x : vector) (a b c : float),
    strictly_between a b c = true ->
    result (y <- rg_evolve x d a b ;; rg_evolve y d b c) = result (rg_evolve x d a c).

(** The regime the loops pick for a start scale that is on one side of each
    threshold, running down and running up. *)
Definition down_regime (mc mb mt a : float) : Z :=
  if py_lt mt a then 6 else if py_lt mb a then 5 else if py_lt mc a then 4 else 3.

Definition up_regime (mc mb mt a : float) : Z :=
  if py_lt a mc then 3 else if py_lt a mb then 4 else if py_lt a mt then 5 else 6.

Definition regime (mc mb mt a b : float) : Z :=
  if py_lt b a then down_regime mc mb mt a else up_regime mc mb mt a.

End Vocabulary.

(** Consecutive segments meet: each one starts at the scale the one before
    it stopped at. *)
Fixpoint chained {X : Externals} (l : list call) : Prop :=
  match l with
  | c1 :: (c2 :: _) as rest => call_to c1 = call_from c2 /\ chained rest
  | _ => True
  end.

(** A parameter set whose charm mass, 0.05, lies below the floor 0.1. *)
Definition lit_0_07 : float := Eval cbv in Prim2SF 0.07%float.

Definition par_light_charm : params :=
  [(mass "c", lit_0_05); (mass "b", lit_4_18); (mass "t", lit_173)].

(** The parameter set of the scenario with the light quark masses, and the
    part of it that [get_alpha] needs at the reference scale. *)
Definition lit_0_0022 : float := Eval cbv in Prim2SF 0.0022%float.
Definition lit_0_0047 : float := Eval cbv in Prim2SF 0.0047%float.
Definition lit_0_095 : float := Eval cbv in Prim2SF 0.095%float.

Definition par_full : params :=
  par_scenario ++
  [(mass "u", lit_0_0022); (mass "d", lit_0_0047); (mass "s", lit_0_095)].

Definition par_reference : params :=
  [(Name "alpha_s", lit_0_1185); (Name "alpha_e", lit_alpha_e);
   (mass "Z", lit_91_1876)].

(** ** The mass and Wilson-coefficient wrappers *)

Section Wrappers.
Context {X : Externals}.

(** [d[name]] on the dict that [get_alpha] returns. *)
Definition coupling (d : list (string * float)) (name : string) : M float :=
  lift (getitem String.eqb d name).

(** [get_wilson].  The argument [derivative_nf] is the closure of that name
    which the call builds over [adm]: a new function object at every call.
    [np.append] is the concatenation, and [sol[:-2]] drops the last two
    components (all of them when there are fewer). *)
Definition get_wilson (betafunctions_qcd_qed_nf derivative_nf : selector)
    (par : params) (c_in : vector) (scale_in scale_out : float) : M vector :=
  alpha_in <- get_alpha betafunctions_qcd_qed_nf par scale_in ;;
  a_s <- coupling alpha_in "alpha_s" ;;
  a_e <- coupling alpha_in "alpha_e" ;;
  let x_in := c_in ++ [a_s; a_e] in
  sol <- rg_evolve_sm x_in par derivative_nf scale_in scale_out ;;
  ret (firstn (List.length sol - 2) sol).

(** The mass wrappers index the solution with [sol[1]], which may raise an
    IndexError besides what the driver raises. *)
Inductive wrapper_exn : Type :=
| Raised (e : exn)
| IndexError.

Definition MW (A : Type) : Type :=
  cache -> ((wrapper_exn + A) * list call) * cache.

#[global] Instance Monad_MW : Monad MW := {
  ret := fun A (a : A) c => ((inr a, []), c);
  bind := fun A B (m : MW A) (k : A -> MW B) c =>
    match m c with
    | ((inl e, l), c') => ((inl e, l), c')
    | ((inr a, l), c') =>
        match k a c' with
        | ((r, l'), c'') => ((r, l ++ l'), c'')
        end
    end
}.

(** A computation of the driver inside a wrapper. *)
Definition from_M {A} (m : M A) : MW A :=
  fun c =>
    match m c with
    | ((inl e, l), c') => ((inl (Raised e), l), c')
    | ((inr a, l), c') => ((inr a, l), c')
    end.

(** [sol[1]]. *)
Definition item1 (sol : vector) : MW float :=
  fun c =>
    ((match nth_error sol 1 with
      | Some m => inr m
      | None => inl IndexError
      end, []), c).

(** [get_mq]; [derivative_nf] is again the closure the call builds. *)
Definition get_mq (betafunctions_qcd_qed_nf derivative_nf : selector)
    (par : params) (m_in scale_in scale_out : float) : MW float :=
  alpha <- from_M (get_alpha betafunctions_qcd_qed_nf par scale_in) ;;
  alphas_in <- from_M (coupling alpha "alpha_s") ;;
  let x_in := [alphas_in; m_in] in
  sol <- from_M (rg_evolve_sm x_in par derivative_nf scale_in scale_out) ;;
  item1 sol.

(** [get_mb] and [get_mc]: the input scale is the mass itself. *)
Definition get_mb (betafunctions_qcd_qed_nf derivative_nf : selector)
    (par : params) (scale : float) : MW float :=
  m <- from_M (lift (getitem par_key_eqb par (mass "b"))) ;;
  get_mq betafunctions_qcd_qed_nf derivative_nf par m m scale.

Definition get_mc (betafunctions_qcd_qed_nf derivative_nf : selector)
    (par : params) (scale : float) : MW float :=
  m <- from_M (lift (getitem par_key_eqb par (mass "c"))) ;;
  get_mq betafunctions_qcd_qed_nf derivative_nf par m m scale.

(** [get_mu], [get_md] and [get_ms]: the input scale is 2.0. *)
Definition get_mu (betafunctions_qcd_qed_nf derivative_nf : selector)
    (par : params) (scale : float) : MW float :=
  m <- from_M (lift (getitem par_key_eqb par (mass "u"))) ;;
  get_mq betafunctions_qcd_qed_nf derivative_nf par m lit_2 scale.

Definition get_md (betafunctions_qcd_qed_nf derivative_nf : selector)
    (par : params) (scale : float) : MW float :=
  m <- from_M (lift (getitem par_key_eqb par (mass "d"))) ;;
  get_mq betafunctions_qcd_qed_nf derivative_nf par m lit_2 scale.

Definition get_ms (betafunctions_qcd_qed_nf derivative_nf : selector)
    (par : params) (scale : float) : MW float :=
  m <- from_M (lift (getitem par_key_eqb par (mass "s"))) ;;
  get_mq betafunctions_qcd_qed_nf derivative_nf par m lit_2 scale.

(** ** Vocabulary of the further properties *)

(** The calls [l] use, in this order, right-hand sides of some of the regimes
    [nfs], each regime at most once. *)
Fixpoint follows (sel : selector) (nfs : list Z) (l : list call) : Prop :=
  match nfs with
  | [] => l = []
  | nf :: nfs' =>
      (exists c l', l = c :: l' /\ call_rhs c = select sel nf /\ follows sel nfs' l')
      \/ follows sel nfs' l
  end.

(** The calls [l] pass the vector along: the first one integrates [x], each
    later one the vector the solver returned for the one before, and a call
    the solver raised on is the last. *)
Fixpoint carried (x : vector) (l : list call) : Prop :=
  match l with
  | [] => True
  | c :: l' =>
      call_initial c = x /\
      match odeint (call_rhs c) (call_initial c) (call_from c, call_to c) with
      | inr s => carried (snd s) l'
      | inl _ => l' = []
      end
  end.

(** What replaying the calls [l] from the vector [x] leaves. *)
Fixpoint replay (x : vector) (l : list call) : exn + vector :=
  match l with
  | [] => inr x
  | c :: l' =>
      match odeint (call_rhs c) (call_initial c) (call_from c, call_to c) with
      | inr s => replay (snd s) l'
      | inl e => inl (SolverError e)
      end
  end.

(** The last call of a log, if any. *)
Definition last_call (l : list call) : option call := hd_error (rev l).

(** The solver returns rows as long as the vector it is given. *)
Definition length_preserving : Prop :=
  forall d x t s, odeint d x t = inr s -> List.length (snd s) = List.length x.

(** No key of the cache carries the selector [sel]. *)
Definition unseen (sel : selector) (c : cache) : Prop :=
  forall k v, In (k, v) c -> k_rhs k <> sel.

End Wrappers.

(** * Properties *)

(** ** The order of floats *)

Section FloatOrder.

Ltac float_cases :=
  repeat match goal with
  | a : float |- _ => destruct a as [[|]|[|]| |[|] ? ?]
  end;
  cbn; try congruence; try discriminate; try reflexivity;
  rewrite ?Pos.compare_cont_spec; unfold Pos.switch_Eq;
  repeat match goal with
  | |- context [Z.compare ?x ?y] => destruct (Z.compare_spec x y)
  | |- context [Pos.compare ?x ?y] => destruct (Pos.compare_spec x y)
  end;
  cbn; subst; try congruence; try discriminate; try reflexivity; try lia.

Lemma SFcompare_antisym (a b : float) :
  SFcompare b a = option_map CompOpp (SFcompare a b).
Proof. float_cases. Qed.

Lemma SFcompare_lt_trans (a b c : float) :
  SFcompare a b = Some Lt -> SFcompare b c = Some Lt -> SFcompare a c = Some Lt.
Proof. float_cases. Qed.

Lemma SFcompare_eq_lt_trans (a b c : float) :
  SFcompare a b = Some Eq -> SFcompare b c = Some Lt -> SFcompare a c = Some Lt.
Proof. float_cases. Qed.

Lemma SFcompare_lt_eq_trans (a b c : float) :
  SFcompare a b = Some Lt -> SFcompare b c = Some Eq -> SFcompare a c = Some Lt.
Proof. float_cases. Qed.

Lemma SFcompare_total (a b : float) :
  is_nan a = false -> is_nan b = false -> SFcompare a b <> None.
Proof. float_cases. Qed.

Lemma SFcompare_nan (a b : float) :
  SFcompare a b <> None -> is_nan a = false /\ is_nan b = false.
Proof. destruct a as [[|]|[|]| |[|] ? ?], b as [[|]|[|]| |[|] ? ?]; cbn; intuition congruence. Qed.

Lemma SFcompare_refl (a : float) :
  is_nan a = false -> SFcompare a a = Some Eq.
Proof.
  destruct a as [[|]|[|]| |[|] m e]; cbn; try congruence; intros _;
    rewrite Z.compare_refl, Pos.compare_cont_spec, Pos.compare_refl; reflexivity.
Qed.

End FloatOrder.

Section PyOrder.

Ltac to_compare :=
  unfold py_gt, py_ge, py_eq, py_lt, py_le, SFeqb, SFltb, SFleb in *.

Lemma py_lt_not_nan (a b : float) :
  py_lt a b = true -> is_nan a = false /\ is_nan b = false.
Proof.
  to_compare. intros H. apply SFcompare_nan. destruct (SFcompare a b); congruence.
Qed.

Lemma py_le_not_nan (a b : float) :
  py_le a b = true -> is_nan a = false /\ is_nan b = false.
Proof.
  to_compare. intros H. apply SFcompare_nan. destruct (SFcompare a b); congruence.
Qed.

Lemma py_eq_refl (a : float) : is_nan a = false -> py_eq a a = true.
Proof. to_compare. intros H. rewrite (SFcompare_refl a H). reflexivity. Qed.

Lemma py_le_refl (a : float) : is_nan a = false -> py_le a a = true.
Proof. to_compare. intros H. rewrite (SFcompare_refl a H). reflexivity. Qed.

Lemma py_lt_le (a b : float) : py_lt a b = true -> py_le a b = true.
Proof. to_compare. destruct (SFcompare a b) as [[ | | ]|]; congruence. Qed.

Lemma py_lt_neq (a b : float) : py_lt a b = true -> py_eq a b = false.
Proof. to_compare. destruct (SFcompare a b) as [[ | | ]|]; congruence. Qed.

Lemma py_lt_neq_sym (a b : float) : py_lt a b = true -> py_eq b a = false.
Proof.
  to_compare. rewrite (SFcompare_antisym a b).
  destruct (SFcompare a b) as [[ | | ]|]; cbn; congruence.
Qed.

Lemma py_lt_asym (a b : float) : py_lt a b = true -> py_lt b a = false.
Proof.
  to_compare. rewrite (SFcompare_antisym a b).
  destruct (SFcompare a b) as [[ | | ]|]; cbn; congruence.
Qed.

Lemma py_lt_not_ge (a b : float) : py_lt a b = true -> py_le b a = false.
Proof.
  to_compare. rewrite (SFcompare_antisym a b).
  destruct (SFcompare a b) as [[ | | ]|]; cbn; congruence.
Qed.

Lemma py_le_not_gt (a b : float) : py_le a b = true -> py_lt b a = false.
Proof.
  to_compare. rewrite (SFcompare_antisym a b).
  destruct (SFcompare a b) as [[ | | ]|]; cbn; congruence.
Qed.

Lemma py_le_cases (a b : float) : py_le a b = py_lt a b || py_eq a b.
Proof. to_compare. destruct (SFcompare a b) as [[ | | ]|]; reflexivity. Qed.

Lemma py_eq_sym (a b : float) : py_eq a b = py_eq b a.
Proof.
  to_compare. rewrite (SFcompare_antisym a b).
  destruct (SFcompare a b) as [[ | | ]|]; reflexivity.
Qed.

Lemma py_not_le_gt (a b : float) :
  is_nan a = false -> is_nan b = false -> py_le a b = false -> py_lt b a = true.
Proof.
  intros Ha Hb. pose proof (SFcompare_total a b Ha Hb) as T.
  to_compare. rewrite (SFcompare_antisym a b).
  destruct (SFcompare a b) as [[ | | ]|]; cbn; congruence.
Qed.

Lemma py_not_lt_ge (a b : float) :
  is_nan a = false -> is_nan b = false -> py_lt a b = false -> py_le b a = true.
Proof.
  intros Ha Hb. pose proof (SFcompare_total a b Ha Hb) as T.
  to_compare. rewrite (SFcompare_antisym a b).
  destruct (SFcompare a b) as [[ | | ]|]; cbn; congruence.
Qed.

Lemma py_lt_trans (a b c : float) :
  py_lt a b = true -> py_lt b c = true -> py_lt a c = true.
Proof.
  to_compare. intros H1 H2.
  rewrite (SFcompare_lt_trans a b c); [reflexivity | | ];
    [destruct (SFcompare a b) as [[ | | ]|] | destruct (SFcompare b c) as [[ | | ]|]];
    congruence.
Qed.

Lemma py_le_lt_trans (a b c : float) :
  py_le a b = true -> py_lt b c = true -> py_lt a c = true.
Proof.
  to_compare. intros H1 H2.
  assert (Hbc : SFcompare b c = Some Lt)
    by (destruct (SFcompare b c) as [[ | | ]|]; congruence).
  destruct (SFcompare a b) as [[ | | ]|] eqn:Hab; try congruence.
  - rewrite (SFcompare_eq_lt_trans a b c Hab Hbc). reflexivity.
  - rewrite (SFcompare_lt_trans a b c Hab Hbc). reflexivity.
Qed.

Lemma py_lt_le_trans (a b c : float) :
  py_lt a b = true -> py_le b c = true -> py_lt a c = true.
Proof.
  to_compare. intros H1 H2.
  assert (Hab : SFcompare a b = Some Lt)
    by (destruct (SFcompare a b) as [[ | | ]|]; congruence).
  destruct (SFcompare b c) as [[ | | ]|] eqn:Hbc; try congruence.
  - rewrite (SFcompare_lt_eq_trans a b c Hab Hbc). reflexivity.
  - rewrite (SFcompare_lt_trans a b c Hab Hbc). reflexivity.
Qed.

(** [max] and [min] against the target scale. *)
Lemma py_max_lt (th out : float) : py_lt th out = true -> py_max th out = out.
Proof. unfold py_max, py_gt. fold (py_lt th out). intros ->. reflexivity. Qed.

Lemma py_max_ge (th out : float) : py_lt th out = false -> py_max th out = th.
Proof. unfold py_max, py_gt. fold (py_lt th out). intros ->. reflexivity. Qed.

Lemma py_min_gt (th out : float) : py_lt out th = true -> py_min th out = out.
Proof. unfold py_min. intros ->. reflexivity. Qed.

Lemma py_min_le (th out : float) : py_lt out th = false -> py_min th out = th.
Proof. unfold py_min. intros ->. reflexivity. Qed.

(** The terminal test [scale_stop == scale_out] of either loop. *)
Lemma py_max_terminal (th out : float) :
  is_nan out = false -> py_eq (py_max th out) out = py_le th out.
Proof.
  intros Hn. rewrite py_le_cases. destruct (py_lt th out) eqn:E.
  - rewrite py_max_lt by assumption. apply py_eq_refl; assumption.
  - rewrite py_max_ge by assumption. reflexivity.
Qed.

Lemma py_min_terminal (th out : float) :
  is_nan out = false -> py_eq (py_min th out) out = py_le out th.
Proof.
  intros Hn. rewrite py_le_cases. destruct (py_lt out th) eqn:E.
  - rewrite py_min_gt by assumption. apply py_eq_refl; assumption.
  - rewrite py_min_le by assumption. cbn. apply py_eq_sym.
Qed.

Lemma py_min_inf (out : float) : is_nan out = false -> py_min np_inf out = out.
Proof.
  unfold py_min, py_lt.
  destruct out as [[|]|[|]| |[|] ? ?]; intros H; try reflexivity; discriminate H.
Qed.

End PyOrder.

(** ** How the public entry point reaches the loops *)

Section Plumbing.
Context {X : Externals}.

(** The function under the decorator forgets the exit point of the traced one. *)
Lemma wrapped_traced (k : key) :
  _rg_evolve_sm_wrapped k =
  (match result (_rg_evolve_sm_traced (k_mc k) (k_mb k) (k_mt k) (k_rhs k)
                   (k_in k) (k_out k) (k_initial k)) with
   | inl e => inl e
   | inr r => inr (snd r)
   end,
   calls (_rg_evolve_sm_traced (k_mc k) (k_mb k) (k_mt k) (k_rhs k)
            (k_in k) (k_out k) (k_initial k))).
Proof.
  unfold _rg_evolve_sm_wrapped, result, calls.
  destruct (_rg_evolve_sm_traced _ _ _ _ _ _ _) as [[e | r] l]; cbn;
    [reflexivity | rewrite app_nil_r; reflexivity].
Qed.

(** A miss runs the function under the decorator. *)
Lemma _rg_evolve_sm_miss x mc mb mt sel a b (c : cache) :
  lookup key_eqb c (Key x mc mb mt sel a b) = None ->
  fst (_rg_evolve_sm x mc mb mt sel a b c) =
  _rg_evolve_sm_wrapped (Key x mc mb mt sel a b).
Proof.
  intros Hmiss. unfold _rg_evolve_sm, lru_cache. rewrite Hmiss.
  destruct (result _); reflexivity.
Qed.

(** A hit returns the stored value and calls nothing. *)
Lemma _rg_evolve_sm_hit x mc mb mt sel a b (c : cache) v :
  lookup key_eqb c (Key x mc mb mt sel a b) = Some v ->
  fst (_rg_evolve_sm x mc mb mt sel a b c) = (inr v, []).
Proof.
  intros Hhit. unfold _rg_evolve_sm, lru_cache. rewrite Hhit. reflexivity.
Qed.

(** Past its two guards, and with the three masses in the parameter dict,
    [rg_evolve_sm] is the cached driver. *)
Lemma rg_evolve_sm_guarded x (par : params) sel a b mc mb mt (c : cache) :
  py_eq a b = false ->
  py_lt b lit_0_1 = false ->
  lookup par_key_eqb par (mass "c") = Some mc ->
  lookup par_key_eqb par (mass "b") = Some mb ->
  lookup par_key_eqb par (mass "t") = Some mt ->
  rg_evolve_sm x par sel a b c = _rg_evolve_sm x mc mb mt sel a b c.
Proof.
  intros Hne Hfloor Hc Hb Ht. unfold rg_evolve_sm, lift, getitem.
  rewrite Hne, Hfloor. cbn. rewrite Hc. cbn. rewrite Hb. cbn. rewrite Ht. cbn.
  destruct (_rg_evolve_sm x mc mb mt sel a b c) as [[r l] c']. reflexivity.
Qed.

End Plumbing.

(** ** The guards of [rg_evolve_sm] *)

Section Guards.
Context {X : Externals}.

(** C3. For every initial vector [x] and every positive scale [s], also one
    below 0.1, [rg_evolve_sm x par sel s s] returns [x] itself, invokes the
    Segment Integrator not at all and leaves the cache as it was. *)
Theorem identity_short_circuit (x : vector) (par : params) (sel : selector)
    (s : float) (c : cache) :
  py_lt lit_zero s = true ->
  rg_evolve_sm x par sel s s c = ((inr x, []), c).
Proof.
  intros Hpos. unfold rg_evolve_sm.
  rewrite py_eq_refl by (apply (py_lt_not_nan _ _ Hpos)). reflexivity.
Qed.

(** C2, amended. For every initial vector, parameter set and start scale that
    does not compare equal to the target, a target scale below 0.1 makes
    [rg_evolve_sm] raise the ValueError of the strange threshold, with no solver
    invocation and the cache untouched. *)
Theorem domain_guard (x : vector) (par : params) (sel : selector)
    (scale_in scale_out : float) (c : cache) :
  py_eq scale_in scale_out = false ->
  py_lt scale_out lit_0_1 = true ->
  rg_evolve_sm x par sel scale_in scale_out c =
  ((inl (ValueError below_strange), []), c).
Proof.
  intros Hne Hlow. unfold rg_evolve_sm. rewrite Hne, Hlow. reflexivity.
Qed.

End Guards.

(** C3 at the scale 0.05, below the floor. *)
Lemma identity_short_circuit_witness :
  py_lt lit_zero lit_0_05 = true /\
  @rg_evolve_sm (Probe 0) [lit_2] [] tt lit_0_05 lit_0_05 [] = ((inr [lit_2], []), []).
Proof.
  split; [reflexivity | apply (@identity_short_circuit (Probe 0)); reflexivity].
Defined.

(** C2 as stated fails when the start scale equals the target: the identity
    test comes first, so from 0.05 to 0.05, below the floor, the call returns
    its input and raises nothing. *)
Lemma domain_guard_every_scale_in_fails :
  py_lt lit_0_05 lit_0_1 = true /\
  @rg_evolve_sm (Probe 0) [lit_2] [] tt lit_0_05 lit_0_05 [] = ((inr [lit_2], []), []) /\
  ~ (forall (X : Externals) (x : vector) (par : params) (sel : selector)
            (scale_in scale_out : float) (c : cache),
        py_lt scale_out lit_0_1 = true ->
        exists msg, result (fst (rg_evolve_sm x par sel scale_in scale_out c))
                    = inl (ValueError msg)).
Proof.
  split; [reflexivity |]. split; [reflexivity |].
  intros H.
  destruct (H (Probe 0) [lit_2] [] tt lit_0_05 lit_0_05 [] eq_refl) as [msg Hmsg].
  discriminate Hmsg.
Qed.

Lemma domain_guard_witness :
  py_eq lit_2 lit_0_05 = false /\ py_lt lit_0_05 lit_0_1 = true /\
  @rg_evolve_sm (Probe 0) [lit_2] [] tt lit_2 lit_0_05 [] =
  ((inl (ValueError below_strange), []), []).
Proof.
  split; [reflexivity | split; [reflexivity |]].
  apply (@domain_guard (Probe 0)); reflexivity.
Defined.

(** ** Routing through the regimes *)

Ltac unfold_driver :=
  unfold _rg_evolve_sm_traced, leave, return_sol, for_each, down_body, up_body,
    up_skip, getitem, thresholds, rg_evolve, result, calls;
  cbn -[odeint select].

Ltac branch :=
  match goal with
  | |- context [match odeint ?d ?x ?t with _ => _ end] =>
      let E := fresh "Esolve" in destruct (odeint d x t) as [? | [? ?]] eqn:E
  | |- context [if ?b then _ else _] =>
      let E := fresh "Etest" in destruct b eqn:E
  end; cbn -[odeint select].

Section Routing.
Context {X : Externals}.

Lemma py_neither_eq (a b : float) :
  is_nan a = false -> is_nan b = false ->
  py_lt a b = false -> py_lt b a = false -> py_eq a b = true.
Proof.
  intros Ha Hb Hab Hba. pose proof (py_not_lt_ge a b Ha Hb Hab) as Hle.
  rewrite py_le_cases, Hba in Hle. cbn in Hle. rewrite py_eq_sym. exact Hle.
Qed.

Lemma finite_not_nan (a : float) : finite a = true -> is_nan a = false.
Proof. destruct a; cbn; congruence. Qed.

(** C7. For a call with [scale_in <> scale_out], [scale_out >= 0.1] and finite
    scales, whatever the three masses, the loops either return from within an
    iteration (the terminal test [scale_stop == scale_out] succeeded) or
    propagate an exception of the solver: the [return sol] after the loops is
    never reached. *)
Theorem fallback_unreachable (mc mb mt : float) (sel : selector)
    (scale_in scale_out : float) (x : vector) :
  py_eq scale_in scale_out = false ->
  py_ge scale_out lit_0_1 = true ->
  finite scale_in = true ->
  finite scale_out = true ->
  (exists v, result (_rg_evolve_sm_traced mc mb mt sel scale_in scale_out x)
             = inr (In_loop, v)) \/
  (exists e, result (_rg_evolve_sm_traced mc mb mt sel scale_in scale_out x)
             = inl (SolverError e)).
Proof.
  intros Hne Hfloor Fin Fout. unfold py_ge in Hfloor.
  pose proof (finite_not_nan _ Fin) as Nin.
  pose proof (finite_not_nan _ Fout) as Nout.
  unfold _rg_evolve_sm_traced.
  destruct (py_gt scale_in scale_out) eqn:Hdown.
  - (* running down: regime 3 is entered and is terminal *)
    unfold py_gt in Hdown.
    assert (H3 : py_le scale_in lit_0_1 = false)
      by (apply py_lt_not_ge; eapply py_le_lt_trans; eassumption).
    assert (T3 : py_eq (py_max lit_0_1 scale_out) scale_out = true)
      by (rewrite py_max_terminal; assumption).
    unfold_driver. rewrite H3, T3.
    repeat branch; eauto.
  - destruct (py_lt scale_in scale_out) eqn:Hup.
    + (* running up: regime 6 is never skipped and is terminal *)
      unfold_driver. rewrite (py_min_inf _ Nout), (py_eq_refl _ Nout).
      repeat branch; eauto.
    + unfold py_gt in Hdown.
      rewrite (py_neither_eq _ _ Nin Nout Hup Hdown) in Hne. discriminate.
Qed.

End Routing.

(** C7 on the concrete scenario, from 91.1876 down to 5.0. *)
Lemma fallback_unreachable_witness :
  py_eq lit_91_1876 lit_5 = false /\ py_ge lit_5 lit_0_1 = true /\
  finite lit_91_1876 = true /\ finite lit_5 = true /\
  ((exists v, result (@_rg_evolve_sm_traced (Probe 0) lit_1_27 lit_4_18 lit_173 tt
                        lit_91_1876 lit_5 []) = inr (In_loop, v)) \/
   (exists e, result (@_rg_evolve_sm_traced (Probe 0) lit_1_27 lit_4_18 lit_173 tt
                        lit_91_1876 lit_5 []) = inl (SolverError e))).
Proof.
  do 4 (split; [reflexivity |]).
  apply (@fallback_unreachable (Probe 0)); reflexivity.
Defined.

(** ** The concrete scenario *)

Section Scenario.
Context {X : Externals}.

(** C4. With masses 1.27, 4.18 and 173.0, running from 91.1876 down to 5.0:
    regime 6 is skipped ([91.1876 <= 173.0]), in regime 5
    [scale_stop = max(4.18, 5.0) = 5.0 = scale_out], and the whole evolution is
    the single solver invocation from 91.1876 to 5.0 with the right-hand side
    of regime 5, returned from within the loop; so is the public call on any
    cache that does not hold the key. *)
Theorem scenario_single_segment (x : vector) (sel : selector) :
  py_le lit_91_1876 lit_173 = true /\
  py_max lit_4_18 lit_5 = lit_5 /\
  py_eq lit_5 lit_5 = true /\
  _rg_evolve_sm_traced lit_1_27 lit_4_18 lit_173 sel lit_91_1876 lit_5 x =
    (s <- rg_evolve x (select sel 5) lit_91_1876 lit_5 ;; ret (In_loop, s)) /\
  calls (_rg_evolve_sm_traced lit_1_27 lit_4_18 lit_173 sel lit_91_1876 lit_5 x) =
    [Call x (select sel 5) lit_91_1876 lit_5] /\
  forall c : cache,
    lookup key_eqb c (scenario_key x sel) = None ->
    fst (rg_evolve_sm x par_scenario sel lit_91_1876 lit_5 c) =
    rg_evolve x (select sel 5) lit_91_1876 lit_5.
Proof.
  assert (Hrun :
    _rg_evolve_sm_traced lit_1_27 lit_4_18 lit_173 sel lit_91_1876 lit_5 x =
    (s <- rg_evolve x (select sel 5) lit_91_1876 lit_5 ;; ret (In_loop, s))).
  { unfold _rg_evolve_sm_traced.
    change (py_gt lit_91_1876 lit_5) with true.
    unfold_driver.
    change (py_le lit_91_1876 lit_173) with true.
    change (py_le lit_91_1876 lit_4_18) with false.
    change (py_max lit_4_18 lit_5) with lit_5.
    change (py_eq lit_5 lit_5) with true.
    cbn -[odeint select].
    destruct (odeint _ _ _) as [e | [s0 s1]]; reflexivity. }
  repeat split; try reflexivity.
  - exact Hrun.
  - rewrite Hrun. unfold rg_evolve. cbn -[odeint select].
    destruct (odeint _ _ _) as [e | [s0 s1]]; reflexivity.
  - intros c Hmiss.
    rewrite (rg_evolve_sm_guarded x par_scenario sel lit_91_1876 lit_5
               lit_1_27 lit_4_18 lit_173 c) by reflexivity.
    rewrite _rg_evolve_sm_miss by exact Hmiss.
    rewrite wrapped_traced. cbn [k_mc k_mb k_mt k_rhs k_in k_out k_initial].
    rewrite Hrun. unfold rg_evolve, result, calls. cbn -[odeint select].
    destruct (odeint _ _ _) as [e | [s0 s1]]; reflexivity.
Qed.

End Scenario.

(** C4 in a fresh process, against the test double. *)
Lemma scenario_single_segment_witness :
  lookup key_eqb ([] : @cache (Probe 0))
    (@scenario_key (Probe 0) [lit_0_1185; lit_alpha_e] tt) = None /\
  fst (@rg_evolve_sm (Probe 0) [lit_0_1185; lit_alpha_e] par_scenario tt
         lit_91_1876 lit_5 []) =
  @rg_evolve (Probe 0) [lit_0_1185; lit_alpha_e] 5 lit_91_1876 lit_5.
Proof.
  split; [reflexivity |].
  destruct (@scenario_single_segment (Probe 0) [lit_0_1185; lit_alpha_e] tt)
    as [_ [_ [_ [_ [_ Hpublic]]]]].
  apply Hpublic. reflexivity.
Defined.

(** [get_alpha] at 5.0 in a fresh process, against the test double. *)
Example get_alpha_scenario :
  fst (@get_alpha (Probe 0) tt par_scenario lit_5 []) =
  (inr [("alpha_s"%string, lit_0_1185); ("alpha_e"%string, lit_alpha_e)],
   [@Call (Probe 0) [lit_0_1185; lit_alpha_e] 5 lit_91_1876 lit_5]).
Proof. vm_compute. reflexivity. Qed.

(** ** Deciding the tests of the loops from known inequalities *)

(** Close the strict and weak inequalities of the context under transitivity. *)
Ltac saturate :=
  unfold py_gt, py_ge in *;
  repeat match goal with
  | H1 : py_lt ?a ?b = true, H2 : py_lt ?b ?c = true |- _ =>
      lazymatch goal with
      | _ : py_lt a c = true |- _ => fail
      | _ => assert (py_lt a c = true) by exact (py_lt_trans a b c H1 H2)
      end
  | H1 : py_le ?a ?b = true, H2 : py_lt ?b ?c = true |- _ =>
      lazymatch goal with
      | _ : py_lt a c = true |- _ => fail
      | _ => assert (py_lt a c = true) by exact (py_le_lt_trans a b c H1 H2)
      end
  | H1 : py_lt ?a ?b = true, H2 : py_le ?b ?c = true |- _ =>
      lazymatch goal with
      | _ : py_lt a c = true |- _ => fail
      | _ => assert (py_lt a c = true) by exact (py_lt_le_trans a b c H1 H2)
      end
  end.

(** Decide a comparison from an inequality of the (saturated) context. *)
Ltac order :=
  unfold py_gt, py_ge;
  match goal with
  | |- py_lt _ _ = true => assumption
  | |- py_le _ _ = true => first [assumption | apply py_lt_le; assumption]
  | |- py_le _ _ = false => apply py_lt_not_ge; assumption
  | |- py_lt _ _ = false =>
      first [apply py_lt_asym; assumption | apply py_le_not_gt; assumption]
  | |- py_eq _ _ = false =>
      first [apply py_lt_neq; assumption | apply py_lt_neq_sym; assumption]
  end.

(** Settle the next test of the unfolded driver when the context decides it. *)
Ltac settle :=
  match goal with
  | |- context [if ?b then _ else _] =>
      first [ replace b with true by (symmetry; order)
            | replace b with false by (symmetry; order) ]
  end; cbn -[odeint select].

Section Floor.
Context {X : Externals}.

(** The function under the decorator raises no ValueError. *)
Lemma traced_no_ValueError mc mb mt sel a b x msg :
  result (_rg_evolve_sm_traced mc mb mt sel a b x) <> inl (ValueError msg).
Proof.
  unfold _rg_evolve_sm_traced.
  destruct (py_gt a b); [| destruct (py_lt a b)];
    unfold_driver; repeat branch; discriminate.
Qed.

(** Past the guards of an upward call below the floor, [rg_evolve_sm] either
    misses a mass or is the cached driver. *)
Lemma upward_from_below_floor x (par : params) sel a b (c : cache) :
  py_lt a lit_0_1 = true ->
  py_le lit_0_1 b = true ->
  rg_evolve_sm x par sel a b c = ((inl KeyError, []), c) \/
  exists mc mb mt,
    lookup par_key_eqb par (mass "c") = Some mc /\
    lookup par_key_eqb par (mass "b") = Some mb /\
    lookup par_key_eqb par (mass "t") = Some mt /\
    rg_evolve_sm x par sel a b c = _rg_evolve_sm x mc mb mt sel a b c.
Proof.
  intros Hin Hout. saturate.
  assert (Hne : py_eq a b = false) by order.
  assert (Hfloor : py_lt b lit_0_1 = false) by order.
  destruct (lookup par_key_eqb par (mass "c")) as [mc |] eqn:Pc.
  2: { left. unfold rg_evolve_sm, lift, getitem.
       rewrite Hne, Hfloor. cbn. rewrite Pc. reflexivity. }
  destruct (lookup par_key_eqb par (mass "b")) as [mb |] eqn:Pb.
  2: { left. unfold rg_evolve_sm, lift, getitem.
       rewrite Hne, Hfloor. cbn. rewrite Pc. cbn. rewrite Pb. reflexivity. }
  destruct (lookup par_key_eqb par (mass "t")) as [mt |] eqn:Pt.
  2: { left. unfold rg_evolve_sm, lift, getitem.
       rewrite Hne, Hfloor. cbn. rewrite Pc. cbn. rewrite Pb. cbn. rewrite Pt.
       reflexivity. }
  right. exists mc, mb, mt. repeat split; try reflexivity.
  apply rg_evolve_sm_guarded; assumption.
Qed.

(** Running up from below the charm mass, the first invocation is regime 3
    from [scale_in]. *)
Lemma upward_first_call mc mb mt sel a b x :
  py_lt a b = true ->
  py_lt a mc = true ->
  hd_error (calls (_rg_evolve_sm_traced mc mb mt sel a b x)) =
  Some (Call x (select sel 3) a (py_min mc b)).
Proof.
  intros Hup Hmc. unfold _rg_evolve_sm_traced.
  replace (py_gt a b) with false by (symmetry; order).
  rewrite Hup. unfold_driver.
  replace (py_ge a mc) with false by (symmetry; order).
  cbn -[odeint select].
  repeat branch; reflexivity.
Qed.

(** C10, amended. The floor 0.1 is tested on the target scale only: an upward
    call with [scale_in < 0.1 <= scale_out] raises no ValueError, whatever the
    parameter dict and the cache.  When the charm mass of the dict lies above
    [scale_in] (as it does whenever [0.1 < mc]), the first solver invocation
    such a call makes, if it makes any, takes the right-hand side of regime 3
    and starts at [scale_in], below the floor; and it makes one whenever the
    three masses are in the dict and the cache does not hold the key. *)
Theorem floor_on_target_only (x : vector) (par : params) (sel : selector)
    (scale_in scale_out : float) (c : cache) :
  py_lt scale_in lit_0_1 = true ->
  py_le lit_0_1 scale_out = true ->
  (forall msg, result (fst (rg_evolve_sm x par sel scale_in scale_out c))
               <> inl (ValueError msg)) /\
  (forall mc first,
     lookup par_key_eqb par (mass "c") = Some mc ->
     py_lt scale_in mc = true ->
     hd_error (calls (fst (rg_evolve_sm x par sel scale_in scale_out c))) = Some first ->
     first = Call x (select sel 3) scale_in (py_min mc scale_out)) /\
  (forall mc mb mt,
     lookup par_key_eqb par (mass "c") = Some mc ->
     lookup par_key_eqb par (mass "b") = Some mb ->
     lookup par_key_eqb par (mass "t") = Some mt ->
     py_lt scale_in mc = true ->
     lookup key_eqb c (Key x mc mb mt sel scale_in scale_out) = None ->
     hd_error (calls (fst (rg_evolve_sm x par sel scale_in scale_out c))) =
     Some (Call x (select sel 3) scale_in (py_min mc scale_out))).
Proof.
  intros Hin Hout.
  assert (Hup : py_lt scale_in scale_out = true)
    by (eapply py_lt_le_trans; eassumption).
  destruct (upward_from_below_floor x par sel scale_in scale_out c Hin Hout)
    as [Hkey | [mc [mb [mt [Pc [Pb [Pt Hrun]]]]]]].
  - rewrite Hkey. repeat split.
    + intros msg. discriminate.
    + intros mc first _ _ Hfirst. discriminate Hfirst.
    + intros mc mb mt Pc Pb Pt. unfold rg_evolve_sm, lift, getitem in Hkey.
      rewrite (py_lt_neq _ _ Hup), (py_le_not_gt _ _ Hout) in Hkey.
      cbn in Hkey. rewrite Pc in Hkey. cbn in Hkey. rewrite Pb in Hkey.
      cbn in Hkey. rewrite Pt in Hkey. cbn in Hkey.
      destruct (_rg_evolve_sm x mc mb mt sel scale_in scale_out c) as [[r l] c'] eqn:E.
      intros Hmc Hmiss.
      pose proof (_rg_evolve_sm_miss x mc mb mt sel scale_in scale_out c Hmiss) as Hw.
      rewrite E in Hw. cbn [fst] in Hw.
      pose proof (upward_first_call mc mb mt sel scale_in scale_out x Hup Hmc) as Hfirst.
      rewrite wrapped_traced in Hw.
      cbn [k_mc k_mb k_mt k_rhs k_in k_out k_initial] in Hw.
      injection Hw as _ Hl. injection Hkey as _ Hl' _.
      rewrite Hl' in Hl. rewrite <- Hl in Hfirst. discriminate Hfirst.
  - rewrite Hrun.
    destruct (lookup key_eqb c (Key x mc mb mt sel scale_in scale_out)) as [v |] eqn:Hc.
    + rewrite (_rg_evolve_sm_hit _ _ _ _ _ _ _ _ _ Hc). repeat split.
      * intros msg. discriminate.
      * intros mc' first _ _ Hfirst. discriminate Hfirst.
      * intros mc' mb' mt' Pc' Pb' Pt' _ Hmiss.
        rewrite Pc in Pc'. rewrite Pb in Pb'. rewrite Pt in Pt'.
        injection Pc' as <-. injection Pb' as <-. injection Pt' as <-.
        rewrite Hc in Hmiss. discriminate Hmiss.
    + rewrite (_rg_evolve_sm_miss _ _ _ _ _ _ _ _ Hc), wrapped_traced.
      cbn [k_mc k_mb k_mt k_rhs k_in k_out k_initial result calls fst snd].
      repeat split.
      * intros msg.
        pose proof (traced_no_ValueError mc mb mt sel scale_in scale_out x msg) as N.
        destruct (result _) as [e | r]; congruence.
      * intros mc' first Pc' Hmc Hfirst. rewrite Pc in Pc'. injection Pc' as <-.
        rewrite (upward_first_call mc mb mt sel scale_in scale_out x Hup Hmc) in Hfirst.
        injection Hfirst as <-. reflexivity.
      * intros mc' mb' mt' Pc' Pb' Pt' Hmc _.
        rewrite Pc in Pc'. injection Pc' as <-.
        apply upward_first_call; assumption.
Qed.

End Floor.

(** C10 as stated fails when the charm mass is not above the start scale: with
    masses 0.05, 4.18 and 173.0, from 0.07 up to 2.0 in a fresh process,
    regime 3 is skipped ([0.07 >= thresholds[4]]) and the first, and only,
    invocation takes the right-hand side of regime 4. *)
Lemma light_charm_skips_regime_3 :
  py_lt lit_zero lit_0_07 = true /\
  py_lt lit_0_07 lit_0_1 = true /\
  py_le lit_0_1 lit_2 = true /\
  py_eq lit_0_07 lit_2 = false /\
  calls (fst (@rg_evolve_sm (Probe 0) [] par_light_charm tt lit_0_07 lit_2 [])) =
    [@Call (Probe 0) [] (@select (Probe 0) tt 4) lit_0_07 lit_2] /\
  forall stop,
    hd_error
      (calls (fst (@rg_evolve_sm (Probe 0) [] par_light_charm tt lit_0_07 lit_2 []))) <>
    Some (@Call (Probe 0) [] (@select (Probe 0) tt 3) lit_0_07 stop).
Proof.
  do 5 (split; [reflexivity |]).
  intros stop H. vm_compute in H. discriminate H.
Qed.

(** C10 from 0.05 up to 2.0 in a fresh process. *)
Lemma floor_on_target_only_witness :
  py_lt lit_0_05 lit_0_1 = true /\ py_le lit_0_1 lit_2 = true /\
  py_lt lit_0_05 lit_1_27 = true /\
  hd_error (calls (fst (@rg_evolve_sm (Probe 0) [] par_scenario tt lit_0_05 lit_2 []))) =
  Some (@Call (Probe 0) [] 3 lit_0_05 (py_min lit_1_27 lit_2)).
Proof.
  do 3 (split; [reflexivity |]).
  destruct (@floor_on_target_only (Probe 0) [] par_scenario tt lit_0_05 lit_2 []
              eq_refl eq_refl) as [_ [_ Hfirst]].
  apply (Hfirst lit_1_27 lit_4_18 lit_173); reflexivity.
Defined.

(** ** Regimes *)

Ltac notnan :=
  match goal with
  | H : py_lt ?a _ = true |- is_nan ?a = false => exact (proj1 (py_lt_not_nan _ _ H))
  | H : py_lt _ ?a = true |- is_nan ?a = false => exact (proj2 (py_lt_not_nan _ _ H))
  | H : py_le ?a _ = true |- is_nan ?a = false => exact (proj1 (py_le_not_nan _ _ H))
  | H : py_le _ ?a = true |- is_nan ?a = false => exact (proj2 (py_le_not_nan _ _ H))
  end.

Ltac settle_stop :=
  repeat match goal with
  | |- context [py_min np_inf ?o] => rewrite (py_min_inf o) by notnan
  | |- context [py_max ?t ?o] =>
      first [rewrite (py_max_lt t o) by order | rewrite (py_max_ge t o) by order]
  | |- context [py_min ?t ?o] =>
      first [rewrite (py_min_gt t o) by order | rewrite (py_min_le t o) by order]
  | |- context [py_eq ?a ?a] => rewrite (py_eq_refl a) by notnan
  end.

Ltac split_bounds :=
  repeat match goal with
  | H : _ && _ = true |- _ => apply andb_prop in H; destruct H
  end.

Section Regimes.
Context {X : Externals}.

Lemma inside_regime mc mb mt nf s :
  inside mc mb mt nf s = true -> nf = 3 \/ nf = 4 \/ nf = 5 \/ nf = 6.
Proof.
  unfold inside, thresholds. cbn [lookup].
  destruct (Z.eqb_spec nf 3); [auto |].
  destruct (Z.eqb_spec nf 4); [auto |].
  destruct (Z.eqb_spec nf 5); [auto |].
  destruct (Z.eqb_spec nf 6); [auto |].
  destruct (Z.eqb_spec nf 7); [subst; cbn; discriminate | discriminate].
Qed.

Lemma py_neq_cases (a b : float) :
  is_nan a = false -> is_nan b = false -> py_eq a b = false ->
  py_lt a b = true \/ py_lt b a = true.
Proof.
  intros Ha Hb Hne. destruct (py_lt a b) eqn:Hab; [auto |].
  destruct (py_lt b a) eqn:Hba; [auto |].
  rewrite (py_neither_eq a b Ha Hb Hab Hba) in Hne. discriminate.
Qed.

(** Within one regime there is a single solver invocation, in either
    direction, from [scale_in] to [scale_out]. *)
Lemma same_regime_single_call mc mb mt sel x nf a b :
  well_formed mc mb mt = true ->
  inside mc mb mt nf a = true ->
  inside mc mb mt nf b = true ->
  py_eq a b = false ->
  calls (_rg_evolve_sm_traced mc mb mt sel a b x) = [Call x (select sel nf) a b].
Proof.
  unfold well_formed. intros Hwf Ha Hb Hne.
  destruct (inside_regime _ _ _ _ _ Ha) as [-> | [-> | [-> | ->]]];
    unfold inside in Ha, Hb; cbn in Ha, Hb; split_bounds;
    (destruct (py_neq_cases a b) as [Hup | Hdown]; [notnan | notnan | assumption | |]);
    saturate; unfold _rg_evolve_sm_traced.
  all: try (replace (py_gt a b) with false by (symmetry; order); rewrite Hup).
  all: try (replace (py_gt a b) with true by (symmetry; order)).
  all: unfold_driver; settle_stop; repeat settle; repeat branch; reflexivity.
Qed.

End Regimes.

(** ** Crossing one threshold *)

Section Crossing.
Context {X : Externals}.

Ltac regimes H :=
  destruct (inside_regime _ _ _ _ _ H) as [-> | [-> | [-> | ->]]].

(** Running up from regime [nf] into regime [nf+1]: the first segment stops at
    the threshold between them, and the second one is started at the lower
    threshold [thresholds[nf]] of the regime just left. *)
Lemma up_crossing_calls mc mb mt sel x nf a b lo th :
  well_formed mc mb mt = true ->
  inside mc mb mt nf a = true ->
  inside mc mb mt (nf + 1) b = true ->
  lookup Z.eqb (thresholds mc mb mt) nf = Some lo ->
  lookup Z.eqb (thresholds mc mb mt) (nf + 1) = Some th ->
  calls (_rg_evolve_sm_traced mc mb mt sel a b x) =
  Call x (select sel nf) a th ::
  match odeint (select sel nf) x (a, th) with
  | inl _ => []
  | inr s => [Call (snd s) (select sel (nf + 1)) lo b]
  end.
Proof.
  unfold well_formed. intros Hwf Ha Hb Hlo Hth.
  regimes Ha; unfold inside in Ha, Hb; cbn in Ha, Hb, Hlo, Hth; try discriminate;
    injection Hlo as <-; injection Hth as <-; split_bounds; saturate;
    unfold _rg_evolve_sm_traced;
    replace (py_gt a b) with false by (symmetry; order);
    replace (py_lt a b) with true by (symmetry; order);
    unfold_driver; settle_stop; repeat settle; repeat branch; reflexivity.
Qed.

(** Running down from regime [nf+1] into regime [nf]: the second segment
    starts at the threshold the first one stopped at. *)
Lemma down_crossing_calls mc mb mt sel x nf a b th :
  well_formed mc mb mt = true ->
  inside mc mb mt (nf + 1) a = true ->
  inside mc mb mt nf b = true ->
  lookup Z.eqb (thresholds mc mb mt) (nf + 1) = Some th ->
  calls (_rg_evolve_sm_traced mc mb mt sel a b x) =
  Call x (select sel (nf + 1)) a th ::
  match odeint (select sel (nf + 1)) x (a, th) with
  | inl _ => []
  | inr s => [Call (snd s) (select sel nf) th b]
  end.
Proof.
  unfold well_formed. intros Hwf Ha Hb Hth.
  regimes Hb; unfold inside in Ha, Hb; cbn in Ha, Hb, Hth; try discriminate;
    injection Hth as <-; split_bounds; saturate;
    unfold _rg_evolve_sm_traced;
    replace (py_gt a b) with true by (symmetry; order);
    unfold_driver; settle_stop; repeat settle; repeat branch; reflexivity.
Qed.

(** Running up from below 0.1 to a scale between 0.1 and the charm mass is a
    single invocation in regime 3: the floor is no boundary between regimes. *)
Lemma floor_crossing_single_call mc mb mt sel x a b :
  well_formed mc mb mt = true ->
  py_lt a lit_0_1 = true ->
  py_lt lit_0_1 b = true ->
  py_lt b mc = true ->
  calls (_rg_evolve_sm_traced mc mb mt sel a b x) = [Call x (select sel 3) a b].
Proof.
  unfold well_formed. intros Hwf Ha Hb Hmc. split_bounds. saturate.
  unfold _rg_evolve_sm_traced.
  replace (py_gt a b) with false by (symmetry; order).
  replace (py_lt a b) with true by (symmetry; order).
  unfold_driver; settle_stop; repeat settle; repeat branch; reflexivity.
Qed.

(** C5, amended. With thresholds in order: an evolution between two different
    scales strictly inside one regime invokes the solver exactly once, from
    [scale_in] to [scale_out] with that regime's right-hand side; an evolution
    from strictly inside regime [nf] up to strictly inside regime [nf+1], that
    is across one of [mc], [mb] and [mt], first integrates regime [nf] up to
    the threshold between them and, when that invocation returns, makes
    exactly one more, with the right-hand side of regime [nf+1], ending at
    [scale_out]: two invocations, one regime change; and an evolution from any
    scale below 0.1 up to any scale between 0.1 and [mc] is no regime change
    but a single invocation in regime 3. *)
Theorem regime_routing mc mb mt sel x nf a b :
  well_formed mc mb mt = true ->
  (inside mc mb mt nf a = true -> inside mc mb mt nf b = true ->
   py_eq a b = false ->
   calls (_rg_evolve_sm_traced mc mb mt sel a b x) = [Call x (select sel nf) a b]) /\
  (inside mc mb mt nf a = true -> inside mc mb mt (nf + 1) b = true ->
   exists th,
     lookup Z.eqb (thresholds mc mb mt) (nf + 1) = Some th /\
     hd_error (calls (_rg_evolve_sm_traced mc mb mt sel a b x)) =
       Some (Call x (select sel nf) a th) /\
     forall s, odeint (select sel nf) x (a, th) = inr s ->
       exists start,
         calls (_rg_evolve_sm_traced mc mb mt sel a b x) =
         [Call x (select sel nf) a th; Call (snd s) (select sel (nf + 1)) start b]) /\
  (py_lt a lit_0_1 = true -> py_lt lit_0_1 b = true -> py_lt b mc = true ->
   calls (_rg_evolve_sm_traced mc mb mt sel a b x) = [Call x (select sel 3) a b]).
Proof.
  intros Hwf. split; [| split].
  - intros Ha Hb Hne. apply same_regime_single_call; assumption.
  - intros Ha Hb.
    destruct (lookup Z.eqb (thresholds mc mb mt) nf) as [lo |] eqn:Hlo;
      [| unfold inside in Ha; rewrite Hlo in Ha; discriminate].
    destruct (lookup Z.eqb (thresholds mc mb mt) (nf + 1)) as [th |] eqn:Hth;
      [| unfold inside in Hb; rewrite Hth in Hb; discriminate].
    exists th. split; [reflexivity |].
    rewrite (up_crossing_calls mc mb mt sel x nf a b lo th) by assumption.
    split; [reflexivity |].
    intros s Hs. rewrite Hs. exists lo. reflexivity.
  - intros Ha Hb Hmc. apply floor_crossing_single_call; assumption.
Qed.

Lemma py_max_nonterminal (th out : float) :
  py_eq (py_max th out) out = false -> py_max th out = th.
Proof.
  intros H. destruct (py_lt th out) eqn:E.
  - assert (N : is_nan out = false) by notnan.
    rewrite (py_max_lt _ _ E), (py_eq_refl _ N) in H. discriminate.
  - apply py_max_ge; assumption.
Qed.

(** Running down, whatever the masses, the segments are chained. *)
Lemma down_chained mc mb mt sel x a b :
  py_gt a b = true ->
  chained (calls (_rg_evolve_sm_traced mc mb mt sel a b x)).
Proof.
  intros Hdown. unfold _rg_evolve_sm_traced. rewrite Hdown.
  unfold_driver. repeat branch; cbn; auto using py_max_nonterminal.
Qed.

(** Running up across a threshold the segments do not meet: once the first
    one has returned, the second starts strictly below the scale reached. *)
Lemma up_crossing_not_chained mc mb mt sel x nf a b lo th s :
  well_formed mc mb mt = true ->
  inside mc mb mt nf a = true ->
  inside mc mb mt (nf + 1) b = true ->
  lookup Z.eqb (thresholds mc mb mt) nf = Some lo ->
  lookup Z.eqb (thresholds mc mb mt) (nf + 1) = Some th ->
  odeint (select sel nf) x (a, th) = inr s ->
  py_lt lo th = true /\
  ~ chained (calls (_rg_evolve_sm_traced mc mb mt sel a b x)).
Proof.
  intros Hwf Ha Hb Hlo Hth Hs.
  assert (Hlt : py_lt lo th = true).
  { unfold well_formed in Hwf.
    regimes Ha; unfold inside in Hb; cbn in Hb, Hlo, Hth; try discriminate;
      injection Hlo as <-; injection Hth as <-; split_bounds; assumption. }
  split; [exact Hlt |].
  rewrite (up_crossing_calls mc mb mt sel x nf a b lo th) by assumption.
  rewrite Hs. cbn. intros [E _]. rewrite E in Hlt.
  rewrite (py_lt_asym _ _ Hlt) in Hlt. discriminate Hlt.
Qed.

End Crossing.

(** C5 as stated fails at the threshold 0.1: from 0.05, just below it, up to
    0.5, just above it and below the charm mass, the driver stays in regime 3
    and invokes the solver once. *)
Lemma crossing_the_floor_is_one_segment :
  well_formed lit_1_27 lit_4_18 lit_173 = true /\
  py_lt lit_0_05 lit_0_1 = true /\
  py_lt lit_0_1 lit_0_5 = true /\
  py_lt lit_0_5 lit_1_27 = true /\
  calls (@_rg_evolve_sm_traced (Probe 0) lit_1_27 lit_4_18 lit_173 tt
           lit_0_05 lit_0_5 []) =
    [@Call (Probe 0) [] 3 lit_0_05 lit_0_5].
Proof. repeat split; reflexivity. Qed.

(** C5 in regime 4 (from 2.0 to 3.0), across the bottom threshold (from 2.0
    to 10.0) and across the floor (from 0.05 to 0.5). *)
Lemma regime_routing_witness :
  well_formed lit_1_27 lit_4_18 lit_173 = true /\
  inside lit_1_27 lit_4_18 lit_173 4 lit_2 = true /\
  inside lit_1_27 lit_4_18 lit_173 4 lit_3 = true /\
  inside lit_1_27 lit_4_18 lit_173 5 lit_10 = true /\
  calls (@_rg_evolve_sm_traced (Probe 0) lit_1_27 lit_4_18 lit_173 tt lit_2 lit_3 []) =
    [@Call (Probe 0) [] 4 lit_2 lit_3] /\
  List.length
    (calls (@_rg_evolve_sm_traced (Probe 0) lit_1_27 lit_4_18 lit_173 tt lit_2 lit_10 []))
  = 2%nat /\
  calls (@_rg_evolve_sm_traced (Probe 0) lit_1_27 lit_4_18 lit_173 tt
           lit_0_05 lit_0_5 []) = [@Call (Probe 0) [] 3 lit_0_05 lit_0_5].
Proof.
  do 4 (split; [reflexivity |]).
  destruct (@regime_routing (Probe 0) lit_1_27 lit_4_18 lit_173 tt [] 4 lit_2 lit_3
              eq_refl) as [Hsame _].
  destruct (@regime_routing (Probe 0) lit_1_27 lit_4_18 lit_173 tt [] 4 lit_2 lit_10
              eq_refl) as [_ [Hcross _]].
  destruct (@regime_routing (Probe 0) lit_1_27 lit_4_18 lit_173 tt [] 3 lit_0_05 lit_0_5
              eq_refl) as [_ [_ Hfloor]].
  split; [exact (Hsame eq_refl eq_refl eq_refl) |].
  split; [| exact (Hfloor eq_refl eq_refl eq_refl)].
  destruct (Hcross eq_refl eq_refl) as [th [Hth [_ Hcalls]]].
  injection Hth as <-.
  destruct (Hcalls _ eq_refl) as [start ->]. reflexivity.
Defined.

(** C1 at the failing input: masses 1.27, 4.18 and 173.0, from 2.0 up to 10.0
    against the test double.  The first segment integrates regime 4 from 2.0
    to 4.18; the second integrates regime 5 to 10.0 but starts at 1.27, the
    lower threshold of regime 4, so the two segments do not meet. *)
Theorem up_carry_forward_restarts_low :
  calls (@_rg_evolve_sm_traced (Probe 0) lit_1_27 lit_4_18 lit_173 tt lit_2 lit_10 []) =
    [@Call (Probe 0) [] 4 lit_2 lit_4_18;
     @Call (Probe 0) [lit_4_18] 5 lit_1_27 lit_10] /\
  ~ chained
      (calls (@_rg_evolve_sm_traced (Probe 0) lit_1_27 lit_4_18 lit_173 tt lit_2 lit_10 [])).
Proof.
  assert (E : calls (@_rg_evolve_sm_traced (Probe 0) lit_1_27 lit_4_18 lit_173 tt
                       lit_2 lit_10 []) =
              [@Call (Probe 0) [] 4 lit_2 lit_4_18;
               @Call (Probe 0) [lit_4_18] 5 lit_1_27 lit_10])
    by (vm_compute; reflexivity).
  split; [exact E |].
  rewrite E. cbn. intros [H _]. discriminate H.
Qed.

(** ** Failures of the solver *)

Section Failures.
Context {X : Externals}.

Lemma disciplined_ret {A} (a : A) : disciplined (ret a).
Proof. constructor. Qed.

Lemma disciplined_KeyError {A} : disciplined (raise KeyError : W A).
Proof. constructor. Qed.

Lemma disciplined_UnboundLocalError {A} : disciplined (raise UnboundLocalError : W A).
Proof. constructor. Qed.

Lemma disciplined_ValueError {A} msg : disciplined (raise (ValueError msg) : W A).
Proof. constructor. Qed.

Lemma disciplined_rg_evolve x d a b : disciplined (rg_evolve x d a b).
Proof.
  unfold disciplined, rg_evolve, result, calls. cbn.
  destruct (odeint d x (a, b)) as [e | s] eqn:E.
  - exists [], (Call x d a b). repeat split; [constructor | exact E].
  - repeat constructor. exists s. exact E.
Qed.

Lemma disciplined_bind {A B} (w : W A) (k : A -> W B) :
  disciplined w -> (forall a, disciplined (k a)) -> disciplined (bind w k).
Proof.
  intros Hw Hk. destruct w as [[e | a] l]; cbn.
  - exact Hw.
  - specialize (Hk a). unfold disciplined, result, calls in *. cbn in Hw.
    destruct (k a) as [r l']. cbn in *.
    destruct r as [[ | | | e] | b];
      try (apply Forall_app; split; assumption).
    destruct Hk as [pre [cl [-> [Hpre Hcl]]]].
    exists (l ++ pre), cl. rewrite app_assoc. repeat split; try assumption.
    apply Forall_app; split; assumption.
Qed.

Lemma disciplined_getitem {K A} (eqb : K -> K -> bool) (d : list (K * A)) k :
  disciplined (getitem eqb d k).
Proof.
  unfold getitem. destruct (lookup eqb d k);
    [apply disciplined_ret | apply disciplined_KeyError].
Qed.

Create HintDb discipline.

#[local] Hint Resolve disciplined_ret disciplined_KeyError disciplined_UnboundLocalError
  disciplined_ValueError disciplined_rg_evolve disciplined_getitem : discipline.

Ltac discipline :=
  repeat first
    [ apply disciplined_bind; [| intros ?]
    | match goal with
      | |- disciplined (if ?b then _ else _) => destruct b
      | |- disciplined (match ?r with inl _ => _ | inr _ => _ end) => destruct r
      | |- disciplined (match ?o with Some _ => _ | None => _ end) => destruct o
      end
    | solve [auto with discipline] ].

Lemma disciplined_for_each body nfs l :
  (forall nf l', disciplined (body nf l')) -> disciplined (for_each body nfs l).
Proof.
  intros Hbody. revert l.
  induction nfs as [| nf rest IH]; intros l; cbn [for_each]; discipline.
Qed.

Lemma disciplined_down_body mc mb mt sel a b nf l :
  disciplined (down_body mc mb mt sel a b nf l).
Proof. unfold down_body. discipline. Qed.

Lemma disciplined_up_body mc mb mt sel a b nf l :
  disciplined (up_body mc mb mt sel a b nf l).
Proof. unfold up_body, up_skip. discipline. Qed.

Lemma disciplined_leave r : disciplined (leave r).
Proof. unfold leave, return_sol. discipline. Qed.

Lemma disciplined_traced mc mb mt sel a b x :
  disciplined (_rg_evolve_sm_traced mc mb mt sel a b x).
Proof.
  unfold _rg_evolve_sm_traced.
  destruct (py_gt a b); [| destruct (py_lt a b)].
  - apply disciplined_bind; [| apply disciplined_leave].
    apply disciplined_for_each, disciplined_down_body.
  - apply disciplined_bind; [| apply disciplined_leave].
    apply disciplined_for_each, disciplined_up_body.
  - apply disciplined_UnboundLocalError.
Qed.

Lemma disciplined_wrapped k : disciplined (_rg_evolve_sm_wrapped k).
Proof.
  unfold _rg_evolve_sm_wrapped.
  apply disciplined_bind; [apply disciplined_traced | intros r; apply disciplined_ret].
Qed.

Lemma disciplined_cached x mc mb mt sel a b (c : cache) :
  disciplined (fst (_rg_evolve_sm x mc mb mt sel a b c)).
Proof.
  destruct (lookup key_eqb c (Key x mc mb mt sel a b)) as [v |] eqn:E.
  - rewrite (_rg_evolve_sm_hit _ _ _ _ _ _ _ _ _ E). constructor.
  - rewrite (_rg_evolve_sm_miss _ _ _ _ _ _ _ _ E). apply disciplined_wrapped.
Qed.

End Failures.

Section FailuresPublic.
Context {X : Externals}.

(** The four ways through [rg_evolve_sm]. *)
Lemma rg_evolve_sm_cases x (par : params) sel a b (c : cache) :
  rg_evolve_sm x par sel a b c = ((inr x, []), c) \/
  rg_evolve_sm x par sel a b c = ((inl (ValueError below_strange), []), c) \/
  rg_evolve_sm x par sel a b c = ((inl KeyError, []), c) \/
  exists mc mb mt,
    rg_evolve_sm x par sel a b c = _rg_evolve_sm x mc mb mt sel a b c.
Proof.
  destruct (py_eq a b) eqn:Hne.
  { left. unfold rg_evolve_sm. rewrite Hne. reflexivity. }
  destruct (py_lt b lit_0_1) eqn:Hfloor.
  { right; left. unfold rg_evolve_sm. rewrite Hne, Hfloor. reflexivity. }
  destruct (lookup par_key_eqb par (mass "c")) as [mc |] eqn:Pc.
  2: { right; right; left. unfold rg_evolve_sm, lift, getitem.
       rewrite Hne, Hfloor. cbn. rewrite Pc. reflexivity. }
  destruct (lookup par_key_eqb par (mass "b")) as [mb |] eqn:Pb.
  2: { right; right; left. unfold rg_evolve_sm, lift, getitem.
       rewrite Hne, Hfloor. cbn. rewrite Pc. cbn. rewrite Pb. reflexivity. }
  destruct (lookup par_key_eqb par (mass "t")) as [mt |] eqn:Pt.
  2: { right; right; left. unfold rg_evolve_sm, lift, getitem.
       rewrite Hne, Hfloor. cbn. rewrite Pc. cbn. rewrite Pb. cbn. rewrite Pt.
       reflexivity. }
  right; right; right. exists mc, mb, mt.
  apply rg_evolve_sm_guarded; assumption.
Qed.

Lemma disciplined_rg_evolve_sm x (par : params) sel a b (c : cache) :
  disciplined (fst (rg_evolve_sm x par sel a b c)).
Proof.
  destruct (rg_evolve_sm_cases x par sel a b c)
    as [-> | [-> | [-> | [mc [mb [mt ->]]]]]]; try (constructor; fail).
  apply disciplined_cached.
Qed.

(** The cached driver stores nothing when the call raises. *)
Lemma _rg_evolve_sm_raise_keeps_cache x mc mb mt sel a b (c : cache) e :
  result (fst (_rg_evolve_sm x mc mb mt sel a b c)) = inl e ->
  snd (_rg_evolve_sm x mc mb mt sel a b c) = c.
Proof.
  unfold _rg_evolve_sm, lru_cache.
  destruct (lookup key_eqb c _); [discriminate |].
  destruct (result (_rg_evolve_sm_wrapped _)) eqn:E; [reflexivity |].
  intros H. unfold result in *. cbn [fst] in H. congruence.
Qed.

Lemma rg_evolve_sm_raise_keeps_cache x (par : params) sel a b (c : cache) e :
  result (fst (rg_evolve_sm x par sel a b c)) = inl e ->
  snd (rg_evolve_sm x par sel a b c) = c.
Proof.
  destruct (rg_evolve_sm_cases x par sel a b c)
    as [-> | [-> | [-> | [mc [mb [mt ->]]]]]]; try reflexivity.
  apply _rg_evolve_sm_raise_keeps_cache.
Qed.

(** C8. If any solver invocation made by an [rg_evolve_sm] call raised [e],
    the call raises that very [e]; the failed invocation is the last one made
    (no retry, no further segment), every earlier one had returned, no vector
    is returned and nothing is stored in the cache. *)
Theorem solver_failure_is_fatal x (par : params) sel a b (c : cache) cl e :
  In cl (calls (fst (rg_evolve_sm x par sel a b c))) ->
  failed_with cl e ->
  result (fst (rg_evolve_sm x par sel a b c)) = inl (SolverError e) /\
  (exists pre, calls (fst (rg_evolve_sm x par sel a b c)) = pre ++ [cl] /\
               Forall succeeded pre) /\
  snd (rg_evolve_sm x par sel a b c) = c.
Proof.
  intros Hin Hfail.
  assert (Hno : ~ succeeded cl).
  { intros [s Hs]. unfold failed_with in Hfail. congruence. }
  pose proof (disciplined_rg_evolve_sm x par sel a b c) as D.
  unfold disciplined in D.
  destruct (result (fst (rg_evolve_sm x par sel a b c))) as [[msg | | | e'] | v] eqn:R;
    try (rewrite Forall_forall in D; elim Hno; apply D; exact Hin).
  destruct D as [pre [cl' [Hcalls [Hpre Hcl']]]].
  rewrite Hcalls in Hin. apply in_app_or in Hin. destruct Hin as [Hin | [<- | []]].
  - rewrite Forall_forall in Hpre. elim Hno. apply Hpre. exact Hin.
  - unfold failed_with in *. assert (e' = e) by congruence. subst e'.
    split; [reflexivity |]. split.
    + exists pre. split; assumption.
    + eapply rg_evolve_sm_raise_keeps_cache. exact R.
Qed.

End FailuresPublic.

(** C8 against a solver that raises in regime 5: from 2.0 up to 10.0 the
    second invocation fails. *)
Lemma solver_failure_is_fatal_witness :
  In (@Call (Probe 5) [lit_4_18] 5 lit_1_27 lit_10)
     (calls (fst (@rg_evolve_sm (Probe 5) [] par_scenario tt lit_2 lit_10 []))) /\
  @failed_with (Probe 5) (@Call (Probe 5) [lit_4_18] 5 lit_1_27 lit_10) 5 /\
  result (fst (@rg_evolve_sm (Probe 5) [] par_scenario tt lit_2 lit_10 [])) =
    inl (@SolverError (Probe 5) 5) /\
  (exists pre,
     calls (fst (@rg_evolve_sm (Probe 5) [] par_scenario tt lit_2 lit_10 [])) =
       pre ++ [@Call (Probe 5) [lit_4_18] 5 lit_1_27 lit_10] /\
     Forall succeeded pre) /\
  snd (@rg_evolve_sm (Probe 5) [] par_scenario tt lit_2 lit_10 []) = [].
Proof.
  assert (Hin : In (@Call (Probe 5) [lit_4_18] 5 lit_1_27 lit_10)
     (calls (fst (@rg_evolve_sm (Probe 5) [] par_scenario tt lit_2 lit_10 []))))
    by (vm_compute; right; left; reflexivity).
  split; [exact Hin |]. split; [reflexivity |].
  exact (@solver_failure_is_fatal (Probe 5) [] par_scenario tt lit_2 lit_10 []
           (@Call (Probe 5) [lit_4_18] 5 lit_1_27 lit_10) 5 Hin eq_refl).
Defined.

(** ** The cache *)

Section Cache.
Context {X : Externals}.

Lemma key_eqb_eq (a b : key) : key_eqb a b = true <-> a = b.
Proof. unfold key_eqb. destruct (key_eq_dec a b); split; congruence. Qed.

Lemma key_eqb_refl (a : key) : key_eqb a a = true.
Proof. apply key_eqb_eq. reflexivity. Qed.

Lemma key_eqb_neq (a b : key) : a <> b -> key_eqb a b = false.
Proof. unfold key_eqb. destruct (key_eq_dec a b); congruence. Qed.

Lemma lookup_head (c : cache) k v : lookup key_eqb ((k, v) :: c) k = Some v.
Proof. cbn. rewrite key_eqb_refl. reflexivity. Qed.

Lemma lookup_tail (c : cache) k v k' :
  k' <> k -> lookup key_eqb ((k, v) :: c) k' = lookup key_eqb c k'.
Proof. intros H. cbn. rewrite (key_eqb_neq _ _ H). reflexivity. Qed.

Lemma lookup_None (c : cache) k :
  lookup key_eqb c k = None <-> ~ In k (keys c).
Proof.
  induction c as [| [k' v'] c IH]; cbn.
  - tauto.
  - destruct (key_eq_dec k k') as [-> | Hne].
    + rewrite key_eqb_refl. split; [discriminate | intros H; elim H; auto].
    + rewrite (key_eqb_neq _ _ Hne), IH. split; [intros H [E | I]; congruence || auto | tauto].
Qed.

Lemma lookup_Some_in (c : cache) k v :
  lookup key_eqb c k = Some v -> In k (keys c).
Proof.
  intros H. destruct (in_dec key_eq_dec k (keys c)) as [I | N]; [exact I |].
  apply lookup_None in N. congruence.
Qed.

Lemma lookup_app (c0 c1 : cache) k :
  lookup key_eqb (c0 ++ c1) k =
  match lookup key_eqb c0 k with
  | Some v => Some v
  | None => lookup key_eqb c1 k
  end.
Proof.
  induction c0 as [| [k' v'] c0 IH]; cbn; [reflexivity |].
  destruct (key_eqb k k'); [reflexivity | exact IH].
Qed.

Lemma lookup_remove (c : cache) k k' :
  lookup key_eqb (cache_remove k c) k' =
  if key_eqb k' k then None else lookup key_eqb c k'.
Proof.
  unfold cache_remove.
  induction c as [| [k0 v0] c IH]; cbn.
  - destruct (key_eqb k' k); reflexivity.
  - destruct (key_eq_dec k k0) as [<- | Hne].
    + rewrite key_eqb_refl. cbn. rewrite IH.
      destruct (key_eqb k' k); reflexivity.
    + rewrite (key_eqb_neq _ _ Hne). cbn. rewrite IH.
      destruct (key_eq_dec k' k) as [-> | Hne'].
      * rewrite key_eqb_refl, (key_eqb_neq _ _ Hne). reflexivity.
      * rewrite (key_eqb_neq _ _ Hne'). reflexivity.
Qed.

Lemma keys_remove (c : cache) k :
  keys (cache_remove k c) = filter (fun k' => negb (key_eqb k k')) (keys c).
Proof.
  unfold keys, cache_remove.
  induction c as [| [k0 v0] c IH]; cbn; [reflexivity |].
  destruct (key_eqb k k0); cbn; congruence.
Qed.

Lemma length_remove (c : cache) k :
  In k (keys c) -> (List.length (cache_remove k c) < List.length c)%nat.
Proof.
  unfold cache_remove.
  induction c as [| [k0 v0] c IH]; cbn; [tauto |].
  intros [-> | I].
  - rewrite key_eqb_refl. cbn.
    pose proof (filter_length_le (fun e => negb (key_eqb k (fst e))) c). lia.
  - specialize (IH I). destruct (key_eqb k k0); cbn; lia.
Qed.

Lemma lookup_removelast (c : cache) k v :
  lookup key_eqb (removelast c) k = Some v -> lookup key_eqb c k = Some v.
Proof.
  destruct c as [| e0 c']; [discriminate |].
  destruct (@exists_last _ (e0 :: c')) as [c0 [e E]]; [discriminate |].
  rewrite E, removelast_last, lookup_app. intros ->. reflexivity.
Qed.

Lemma keys_removelast (c : cache) : keys (removelast c) = removelast (keys c).
Proof.
  unfold keys. induction c as [| e [| e' c] IH]; cbn in *; congruence.
Qed.

Lemma NoDup_removelast {A} (l : list A) : NoDup l -> NoDup (removelast l).
Proof.
  intros H. destruct l as [| a l0]; [exact H |].
  destruct (@exists_last _ (a :: l0)) as [l1 [z El]]; [discriminate |].
  rewrite El in *. rewrite removelast_last.
  rewrite <- (app_nil_r l1). apply NoDup_remove_1 with (a := z). exact H.
Qed.

Lemma In_removelast {A} (l : list A) (a : A) : In a (removelast l) -> In a l.
Proof.
  destruct l as [| b l0]; [tauto |].
  destruct (@exists_last _ (b :: l0)) as [l1 [z El]]; [discriminate |].
  rewrite El. rewrite removelast_last. intros I. apply in_or_app. auto.
Qed.

Lemma In_firstn {A} (m : nat) (l : list A) (a : A) : In a (firstn m l) -> In a l.
Proof.
  intros I. rewrite <- (firstn_skipn m l). apply in_or_app. left. exact I.
Qed.

Lemma keys_cons (c : cache) k v : keys ((k, v) :: c) = k :: keys c.
Proof. reflexivity. Qed.

End Cache.

Section LRU.
Context {X : Externals}.
Variables (n : nat) (f : key -> W vector).
Hypothesis n_positive : (1 <= n)%nat.

Lemma lru_hit (c : cache) k v :
  lookup key_eqb c k = Some v ->
  lru_cache n f k c = (ret v, (k, v) :: cache_remove k c).
Proof. intros H. unfold lru_cache. rewrite H. reflexivity. Qed.

Lemma lru_miss_ok (c : cache) k v :
  lookup key_eqb c k = None ->
  result (f k) = inr v ->
  lru_cache n f k c =
  (f k, (k, v) :: (if (List.length c <? n)%nat then c else removelast c)).
Proof. intros H R. unfold lru_cache. rewrite H, R. reflexivity. Qed.

Lemma lru_miss_raise (c : cache) k e :
  lookup key_eqb c k = None ->
  result (f k) = inl e ->
  lru_cache n f k c = (f k, c).
Proof. intros H R. unfold lru_cache. rewrite H, R. reflexivity. Qed.

(** The decorated function returns what the undecorated one returns. *)
Lemma lru_result (c : cache) k :
  cache_sound f c -> result (fst (lru_cache n f k c)) = result (f k).
Proof.
  intros Hs. unfold lru_cache.
  destruct (lookup key_eqb c k) as [v |] eqn:E.
  - rewrite (Hs k v E). reflexivity.
  - destruct (result (f k)) eqn:R; cbn [fst]; exact R.
Qed.

(** After a call that returned, the key is cached with the value returned. *)
Lemma lru_stores (c : cache) k v :
  result (fst (lru_cache n f k c)) = inr v ->
  lookup key_eqb (snd (lru_cache n f k c)) k = Some v.
Proof.
  unfold lru_cache.
  destruct (lookup key_eqb c k) as [v' |] eqn:E.
  - cbn. intros [= ->]. rewrite key_eqb_refl. reflexivity.
  - destruct (result (f k)) as [e | v'] eqn:R; cbn [fst snd]; rewrite R.
    + discriminate.
    + intros [= ->]. apply lookup_head.
Qed.

Lemma lru_inv (c : cache) k :
  cache_inv n f c -> cache_inv n f (snd (lru_cache n f k c)).
Proof.
  intros [Hnd [Hlen Hs]]. unfold lru_cache.
  destruct (lookup key_eqb c k) as [v |] eqn:E; cbn [snd].
  - (* hit: the entry moves to the front *)
    pose proof (lookup_Some_in _ _ _ E) as Hin.
    repeat split.
    + rewrite keys_cons. constructor.
      * rewrite keys_remove, filter_In, key_eqb_refl. cbn. intros [_ H]. discriminate.
      * rewrite keys_remove. apply NoDup_filter. exact Hnd.
    + cbn. pose proof (length_remove c k Hin). lia.
    + intros k' v'. destruct (key_eq_dec k' k) as [-> | Hne].
      * rewrite lookup_head. intros [= <-]. apply Hs. exact E.
      * rewrite lookup_tail by exact Hne. rewrite lookup_remove.
        rewrite (key_eqb_neq _ _ Hne). apply Hs.
  - destruct (result (f k)) as [e | v] eqn:R; cbn [snd].
    + repeat split; assumption.
    + (* miss: a new entry at the front, the last one dropped when full *)
      apply lookup_None in E.
      destruct (Nat.ltb_spec (List.length c) n) as [Hlt | Hge]; repeat split.
      * rewrite keys_cons. constructor; assumption.
      * cbn. lia.
      * intros k' v'. destruct (key_eq_dec k' k) as [-> | Hne].
        -- rewrite lookup_head. intros [= <-]. exact R.
        -- rewrite lookup_tail by exact Hne. apply Hs.
      * rewrite keys_cons. constructor.
        -- rewrite keys_removelast. intros I. apply E. eapply In_removelast, I.
        -- rewrite keys_removelast. apply NoDup_removelast. exact Hnd.
      * cbn. rewrite removelast_firstn_len, length_firstn. lia.
      * intros k' v'. destruct (key_eq_dec k' k) as [-> | Hne].
        -- rewrite lookup_head. intros [= <-]. exact R.
        -- rewrite lookup_tail by exact Hne. intros H. apply Hs.
           apply lookup_removelast. exact H.
Qed.

Lemma run_inv (ks : list key) (c : cache) :
  cache_inv n f c -> cache_inv n f (run n f ks c).
Proof.
  revert c. induction ks as [| k ks IH]; intros c Hc; cbn; [exact Hc |].
  apply IH, lru_inv, Hc.
Qed.

Lemma inv_empty : cache_inv n f [].
Proof.
  repeat split; [constructor | apply Nat.le_0_l | intros k v; discriminate].
Qed.

Lemma firstn_app_firstn {A} (m p : nat) (a l : list A) :
  (m <= p)%nat -> firstn m (a ++ firstn p l) = firstn m (a ++ l).
Proof.
  revert m. induction a as [| x a IH]; intros m Hm; cbn.
  - rewrite firstn_firstn. f_equal. lia.
  - destruct m as [| m]; cbn; [reflexivity |]. f_equal. apply IH. lia.
Qed.

(** The keys of the cache after a miss that returned. *)
Lemma lru_miss_keys (c : cache) k v :
  (List.length c <= n)%nat ->
  lookup key_eqb c k = None ->
  result (f k) = inr v ->
  keys (snd (lru_cache n f k c)) = k :: firstn (n - 1) (keys c).
Proof.
  intros Hlen Hmiss R. rewrite (lru_miss_ok c k v Hmiss R).
  cbn [snd]. rewrite keys_cons. f_equal.
  destruct (Nat.ltb_spec (List.length c) n) as [Hlt | Hge].
  - rewrite firstn_all2; [reflexivity |]. unfold keys. rewrite length_map. lia.
  - rewrite keys_removelast, removelast_firstn_len. f_equal.
    unfold keys. rewrite length_map. lia.
Qed.

(** After distinct new keys, all of which returned, the cache holds the [n]
    most recent keys, most recent first. *)
Lemma run_keys (ks : list key) (c : cache) :
  NoDup ks ->
  (forall k, In k ks -> ~ In k (keys c)) ->
  (forall k, In k ks -> exists v, result (f k) = inr v) ->
  (List.length c <= n)%nat ->
  keys (run n f ks c) = firstn n (rev ks ++ keys c).
Proof.
  revert c. induction ks as [| k ks IH]; intros c Hnd Hnew Hok Hlen.
  - cbn. rewrite firstn_all2; [reflexivity |]. unfold keys. rewrite length_map. lia.
  - inversion Hnd as [| k0 ks0 Hk Hnd']; subst.
    destruct (Hok k (or_introl eq_refl)) as [v R].
    assert (Hmiss : lookup key_eqb c k = None)
      by (apply lookup_None, Hnew; left; reflexivity).
    pose proof (lru_miss_keys c k v Hlen Hmiss R) as Hkeys.
    cbn [run fold_left]. fold (run n f ks (snd (lru_cache n f k c))).
    rewrite IH.
    + rewrite Hkeys. cbn [rev]. rewrite <- app_assoc. cbn [app].
      replace (k :: firstn (n - 1) (keys c)) with (firstn n (k :: keys c))
        by (destruct n as [| m]; [lia | cbn; f_equal; f_equal; lia]).
      apply firstn_app_firstn. lia.
    + exact Hnd'.
    + intros k' Hin. rewrite Hkeys. intros [<- | I]; [contradiction |].
      apply (Hnew k'); [right; exact Hin |].
      eapply In_firstn; exact I.
    + intros k' Hin. apply Hok. right. exact Hin.
    + rewrite (lru_miss_ok c k v Hmiss R). cbn [snd List.length].
      destruct (Nat.ltb_spec (List.length c) n); [lia |].
      rewrite removelast_firstn_len, length_firstn. lia.
Qed.

End LRU.

(** ** The memoized driver *)

Section Memoized.
Context {X : Externals}.

Lemma cached_call_lru k c :
  cached_call k c = lru_cache maxsize _rg_evolve_sm_wrapped k c.
Proof. destruct k. reflexivity. Qed.

Lemma process_run ks : process ks = run maxsize _rg_evolve_sm_wrapped ks [].
Proof.
  unfold process, run. generalize (@nil (key * vector)).
  induction ks as [| k ks IH]; intros c; cbn [fold_left]; [reflexivity |].
  rewrite cached_call_lru. apply IH.
Qed.

Lemma maxsize_positive : (1 <= maxsize)%nat.
Proof. unfold maxsize. lia. Qed.

Lemma process_inv ks : cache_inv maxsize _rg_evolve_sm_wrapped (process ks).
Proof.
  rewrite process_run. apply run_inv; [exact maxsize_positive |].
  apply inv_empty.
Qed.

(** C6. Whatever calls a process has made before, its cache holds at most 32
    entries, and a call of the decorated [_rg_evolve_sm] with the arguments [k]
    - returns what the undecorated function returns on [k];
    - on a hit returns the stored vector with no solver invocation and makes
      the entry the most recent one;
    - once it has returned [v], an identical second call returns [v] with no
      solver invocation;
    - on a miss that returns with the cache full, stores [k] in front and
      drops the entry at the back, the least recently used;
    and after calls with distinct keys that all returned the cache holds the
    32 most recent keys, so the first of 33 is gone. *)
Theorem memoization_layer (ks : list key) (k : key) :
  (List.length (process ks) <= 32)%nat /\
  result (fst (cached_call k (process ks))) = result (_rg_evolve_sm_wrapped k) /\
  (forall v, lookup key_eqb (process ks) k = Some v ->
     cached_call k (process ks) =
     ((inr v, []), (k, v) :: cache_remove k (process ks))) /\
  (forall v, result (fst (cached_call k (process ks))) = inr v ->
     fst (cached_call k (snd (cached_call k (process ks)))) = (inr v, [])) /\
  (forall c0 k_old v_old v,
     process ks = c0 ++ [(k_old, v_old)] ->
     List.length (process ks) = 32%nat ->
     lookup key_eqb (process ks) k = None ->
     result (_rg_evolve_sm_wrapped k) = inr v ->
     snd (cached_call k (process ks)) = (k, v) :: c0 /\
     lookup key_eqb (snd (cached_call k (process ks))) k_old = None) /\
  (NoDup ks ->
   (forall k', In k' ks -> exists v, result (_rg_evolve_sm_wrapped k') = inr v) ->
   keys (process ks) = firstn 32 (rev ks)).
Proof.
  destruct (process_inv ks) as [Hnd [Hlen Hsound]].
  split; [exact Hlen |].
  split; [rewrite cached_call_lru; apply lru_result; exact Hsound |].
  split; [intros v Hv; rewrite cached_call_lru; apply lru_hit; exact Hv |].
  split.
  { intros v Hv. rewrite !cached_call_lru in *.
    apply (lru_stores maxsize _rg_evolve_sm_wrapped) in Hv.
    rewrite (lru_hit _ _ _ _ _ Hv). reflexivity. }
  split.
  { intros c0 k_old v_old v Hc Hfull Hmiss Hv.
    rewrite cached_call_lru, (lru_miss_ok _ _ _ _ _ Hmiss Hv).
    rewrite Hfull. cbn [snd]. change (32 <? maxsize)%nat with false. cbn iota.
    rewrite Hc, removelast_last. split; [reflexivity |].
    assert (Hk : k_old <> k).
    { intros ->. apply lookup_None in Hmiss. apply Hmiss.
      rewrite Hc. unfold keys. rewrite map_app. apply in_or_app. right. left.
      reflexivity. }
    rewrite lookup_tail by exact Hk. apply lookup_None.
    rewrite Hc in Hnd. unfold keys in Hnd. rewrite map_app in Hnd. cbn in Hnd.
    apply NoDup_remove_2 in Hnd. rewrite app_nil_r in Hnd. exact Hnd. }
  intros Hdistinct Hok. rewrite process_run.
  rewrite (run_keys maxsize _rg_evolve_sm_wrapped maxsize_positive ks []);
    try assumption.
  - rewrite app_nil_r. reflexivity.
  - intros k' _ [].
  - cbn. lia.
Qed.

End Memoized.

(** C6 in a fresh process: the second of two identical calls is a hit. *)
Lemma memoization_layer_witness :
  result (fst (cached_call (probe_key 0) (process []))) = inr [lit_3] /\
  fst (cached_call (probe_key 0) (snd (cached_call (probe_key 0) (process [])))) =
  (inr [lit_3], []).
Proof.
  split; [reflexivity |].
  destruct (memoization_layer [] (probe_key 0)) as [_ [_ [_ [Hagain _]]]].
  apply Hagain. reflexivity.
Defined.

(** Thirty-three distinct keys: the first one called is evicted, the other
    thirty-two are cached, most recent first. *)
Example capacity_plus_one :
  lookup key_eqb (process (map probe_key (seq 0 33))) (probe_key 0) = None /\
  keys (process (map probe_key (seq 0 33))) = map probe_key (rev (seq 1 32)).
Proof. vm_compute. split; reflexivity. Qed.

(** Recency, not age, decides: after thirty-two keys, a hit on the oldest one
    makes the second oldest the victim of the next miss. *)
Example least_recently_used :
  let ks := map probe_key (seq 0 32) ++ [probe_key 0; probe_key 32] in
  lookup key_eqb (process ks) (probe_key 1) = None /\
  lookup key_eqb (process ks) (probe_key 0) = Some [lit_3] /\
  List.length (process ks) = 32%nat.
Proof. vm_compute. repeat split; reflexivity. Qed.

(** A call that raises stores nothing, so an identical second call invokes the
    solver again. *)
Example raise_not_cached :
  let k := @Key (Probe 4) [] lit_1_27 lit_4_18 lit_173 tt lit_2 lit_3 in
  snd (cached_call k []) = [] /\
  calls (fst (cached_call k (snd (cached_call k [])))) =
    [@Call (Probe 4) [] 4 lit_2 lit_3].
Proof. vm_compute. split; reflexivity. Qed.

(** ** Path invariance *)

Ltac sides :=
  repeat match goal with
  | H : same_side _ _ _ _ = true |- _ =>
      unfold same_side in H; apply orb_prop in H; destruct H
  end;
  split_bounds; saturate.

Ltac contradict_order :=
  match goal with
  | H1 : py_lt ?a ?b = true, H2 : py_lt ?b ?a = true |- _ =>
      rewrite (py_lt_asym _ _ H1) in H2; discriminate H2
  end.

Section PathInvariance.
Context {X : Externals}.

Lemma result_bind {A B} (w : W A) (k : A -> W B) :
  result (bind w k) =
  match result w with inl e => inl e | inr a => result (k a) end.
Proof.
  destruct w as [[e | a] l]; cbn; [reflexivity |].
  destruct (k a); reflexivity.
Qed.

(** Between two scales above the floor with no threshold between them the
    driver is one solver invocation. *)
Lemma uncached_one_segment mc mb mt sel x a b m :
  on_one_side mc mb mt a m b = true ->
  py_lt lit_0_1 a = true ->
  py_lt a b = true \/ py_lt b a = true ->
  result (uncached x mc mb mt sel a b) =
  result (rg_evolve x (select sel (regime mc mb mt a b)) a b).
Proof.
  unfold on_one_side. intros Hs Hfloor Hdir. split_bounds.
  unfold uncached. rewrite wrapped_traced. cbn [k_mc k_mb k_mt k_rhs k_in k_out k_initial].
  unfold regime, down_regime, up_regime, _rg_evolve_sm_traced.
  destruct Hdir as [Hup | Hdown]; sides; try contradict_order.
  all: replace (py_eq a b) with false by (symmetry; order).
  all: replace (py_lt b lit_0_1) with false by (symmetry; order).
  all: try (replace (py_gt a b) with false by (symmetry; order); rewrite Hup;
            replace (py_lt b a) with false by (symmetry; order)).
  all: try (replace (py_gt a b) with true by (symmetry; order); rewrite Hdown).
  all: unfold_driver; settle_stop; repeat settle; repeat branch; reflexivity.
Qed.

End PathInvariance.

Section PathInvariancePublic.
Context {X : Externals}.

Lemma same_side_swap12 t a b c : same_side t a b c = same_side t b a c.
Proof.
  unfold same_side.
  destruct (py_lt a t), (py_lt b t), (py_lt c t), (py_lt t a), (py_lt t b), (py_lt t c);
    reflexivity.
Qed.

Lemma same_side_swap23 t a b c : same_side t a b c = same_side t a c b.
Proof.
  unfold same_side.
  destruct (py_lt a t), (py_lt b t), (py_lt c t), (py_lt t a), (py_lt t b), (py_lt t c);
    reflexivity.
Qed.

Lemma on_one_side_swap12 mc mb mt a b c :
  on_one_side mc mb mt a b c = on_one_side mc mb mt b a c.
Proof.
  unfold on_one_side. rewrite (same_side_swap12 lit_0_1), (same_side_swap12 mc),
    (same_side_swap12 mb), (same_side_swap12 mt). reflexivity.
Qed.

Lemma on_one_side_swap23 mc mb mt a b c :
  on_one_side mc mb mt a b c = on_one_side mc mb mt a c b.
Proof.
  unfold on_one_side. rewrite (same_side_swap23 lit_0_1), (same_side_swap23 mc),
    (same_side_swap23 mb), (same_side_swap23 mt). reflexivity.
Qed.

Ltac leg :=
  first
    [ assumption
    | rewrite <- on_one_side_swap23; assumption
    | rewrite on_one_side_swap12; assumption
    | match goal with
      | H : _ \/ _ |- _ \/ _ => destruct H as [[? ?] | [? ?]]; saturate; auto
      end ].

(** The three legs of the path run in the same regime. *)
Lemma regime_shared mc mb mt a b c :
  strictly_between a b c = true ->
  on_one_side mc mb mt a b c = true ->
  regime mc mb mt a b = regime mc mb mt a c /\
  regime mc mb mt b c = regime mc mb mt a c.
Proof.
  unfold strictly_between, on_one_side. intros Hb Hs.
  apply orb_prop in Hb. split_bounds.
  unfold regime, down_regime, up_regime.
  destruct Hb; sides; try contradict_order;
    repeat settle; split; reflexivity.
Qed.

(** On a sound cache the public entry point returns what the driver without
    the cache returns, and leaves a sound cache. *)
Lemma rg_evolve_sm_uncached x (par : params) sel a b mc mb mt (c : cache) :
  cache_inv maxsize _rg_evolve_sm_wrapped c ->
  lookup par_key_eqb par (mass "c") = Some mc ->
  lookup par_key_eqb par (mass "b") = Some mb ->
  lookup par_key_eqb par (mass "t") = Some mt ->
  result (fst (rg_evolve_sm x par sel a b c)) = result (uncached x mc mb mt sel a b) /\
  cache_inv maxsize _rg_evolve_sm_wrapped (snd (rg_evolve_sm x par sel a b c)).
Proof.
  intros Hinv Pc Pb Pt. unfold uncached.
  destruct (py_eq a b) eqn:Hne.
  { unfold rg_evolve_sm. rewrite Hne. split; [reflexivity | exact Hinv]. }
  destruct (py_lt b lit_0_1) eqn:Hfloor.
  { unfold rg_evolve_sm. rewrite Hne, Hfloor. split; [reflexivity | exact Hinv]. }
  rewrite (rg_evolve_sm_guarded x par sel a b mc mb mt c) by assumption.
  unfold _rg_evolve_sm. split.
  - apply lru_result. apply Hinv.
  - apply lru_inv; [exact maxsize_positive | exact Hinv].
Qed.

Lemma result_bind_M {A B} (m : M A) (k : A -> M B) (c : cache) :
  result (fst (bind m k c)) =
  match result (fst (m c)) with
  | inl e => inl e
  | inr a => result (fst (k a (snd (m c))))
  end.
Proof.
  cbn. destruct (m c) as [[[e | a] l] c']; cbn; [reflexivity |].
  destruct (k a c') as [[r l'] c'']. reflexivity.
Qed.

(** C9, amended. When the solver composes along monotone paths, so does the
    driver: for [B] strictly between [A] and [C], the three scales strictly on
    one side of each of the thresholds 0.1, [mc], [mb] and [mt], evolving from
    [A] to [B] and then from [B] to [C] returns (or raises) what evolving from
    [A] to [C] does, in a process that has made any calls [ks] before. *)
Theorem path_invariance x (par : params) sel mc mb mt A B C (ks : list key) :
  composable ->
  lookup par_key_eqb par (mass "c") = Some mc ->
  lookup par_key_eqb par (mass "b") = Some mb ->
  lookup par_key_eqb par (mass "t") = Some mt ->
  strictly_between A B C = true ->
  on_one_side mc mb mt A B C = true ->
  result (fst ((y <- rg_evolve_sm x par sel A B ;; rg_evolve_sm y par sel B C)
                 (process ks))) =
  result (fst (rg_evolve_sm x par sel A C (process ks))).
Proof.
  intros Hflow Pc Pb Pt Hbetween Hsides.
  pose proof (process_inv ks) as Hinv.
  destruct (rg_evolve_sm_uncached x par sel A B mc mb mt _ Hinv Pc Pb Pt) as [RAB Hinv'].
  destruct (rg_evolve_sm_uncached x par sel A C mc mb mt _ Hinv Pc Pb Pt) as [RAC _].
  rewrite result_bind_M, RAB, RAC.
  assert (RBC : forall y,
    result (fst (rg_evolve_sm y par sel B C (snd (rg_evolve_sm x par sel A B (process ks)))))
    = result (uncached y mc mb mt sel B C)).
  { intros y. apply (rg_evolve_sm_uncached y par sel B C mc mb mt _ Hinv' Pc Pb Pt). }
  assert (Hdir : (py_lt A B = true /\ py_lt B C = true) \/
                 (py_lt C B = true /\ py_lt B A = true)).
  { unfold strictly_between in Hbetween. apply orb_prop in Hbetween.
    destruct Hbetween as [H | H]; apply andb_prop in H; tauto. }
  pose proof Hsides as Hsides0. unfold on_one_side in Hsides0.
  apply andb_prop in Hsides0. destruct Hsides0 as [Hsides0 _].
  apply andb_prop in Hsides0. destruct Hsides0 as [Hsides0 _].
  apply andb_prop in Hsides0. destruct Hsides0 as [Hfloor _].
  unfold same_side in Hfloor. apply orb_prop in Hfloor.
  destruct Hfloor as [Hlow | Hhigh]; split_bounds.
  - (* below the floor both routes raise the ValueError of the target *)
    assert (NAB : py_eq A B = false) by (destruct Hdir as [[? ?] | [? ?]]; order).
    assert (NAC : py_eq A C = false)
      by (destruct Hdir as [[? ?] | [? ?]]; saturate; order).
    unfold uncached. rewrite NAB, NAC.
    replace (py_lt B lit_0_1) with true by (symmetry; assumption).
    replace (py_lt C lit_0_1) with true by (symmetry; assumption).
    reflexivity.
  - destruct (regime_shared mc mb mt A B C Hbetween Hsides) as [EAB EBC].
    rewrite (uncached_one_segment mc mb mt sel x A C B) by leg.
    rewrite (uncached_one_segment mc mb mt sel x A B C) by leg.
    rewrite EAB, <- (Hflow _ x A B C Hbetween), result_bind.
    destruct (result (rg_evolve x _ A B)) as [e | y]; [reflexivity |].
    rewrite RBC.
    rewrite (uncached_one_segment mc mb mt sel y B C A) by leg.
    rewrite EBC. reflexivity.
Qed.

End PathInvariancePublic.

(** C9 as stated fails for a solver that is not an exact flow: against the
    test double that records where each integration stopped, going from 10.0
    to 5.0 through 8.0, all inside regime 5, leaves another vector than going
    directly. *)
Lemma path_through_midpoint_differs :
  strictly_between lit_10 lit_8 lit_5 = true /\
  on_one_side lit_1_27 lit_4_18 lit_173 lit_10 lit_8 lit_5 = true /\
  result (fst ((y <- @rg_evolve_sm (Probe 0) [] par_scenario tt lit_10 lit_8 ;;
                @rg_evolve_sm (Probe 0) y par_scenario tt lit_8 lit_5) [])) =
    inr [lit_8; lit_5] /\
  result (fst (@rg_evolve_sm (Probe 0) [] par_scenario tt lit_10 lit_5 [])) =
    inr [lit_5].
Proof. repeat split; reflexivity. Qed.

(** The constant solutions of the second test double compose. *)
Lemma Frozen_composable : @composable Frozen.
Proof. intros d x a b c _. reflexivity. Qed.

(** C9 in regime 5: from 10.0 to 5.0 directly and through 8.0. *)
Lemma path_invariance_witness :
  @composable Frozen /\
  strictly_between lit_10 lit_8 lit_5 = true /\
  on_one_side lit_1_27 lit_4_18 lit_173 lit_10 lit_8 lit_5 = true /\
  result (fst ((y <- @rg_evolve_sm Frozen [lit_2] par_scenario 0%nat lit_10 lit_8 ;;
                @rg_evolve_sm Frozen y par_scenario 0%nat lit_8 lit_5) (process []))) =
  result (fst (@rg_evolve_sm Frozen [lit_2] par_scenario 0%nat lit_10 lit_5 (process []))).
Proof.
  split; [exact Frozen_composable |]. do 2 (split; [reflexivity |]).
  apply (@path_invariance Frozen [lit_2] par_scenario 0%nat
           lit_1_27 lit_4_18 lit_173 lit_10 lit_8 lit_5 []);
    solve [exact Frozen_composable | reflexivity].
Defined.

(** * Further properties *)

(** ** What the loops always do *)

Ltac solve_follows :=
  cbn [follows];
  repeat first
    [ reflexivity
    | left; do 2 eexists; split; [reflexivity | split; [reflexivity |]]
    | right ].

Ltac solved_or_branch :=
  first
    [ match goal with
      | H : odeint _ _ _ = _ |- _ => rewrite H; cbn -[odeint select]
      end
    | branch ].

Section Loops.
Context {X : Externals}.

(** X1. Whatever the arguments, the function under the decorator invokes the
    solver at most four times: at most once per regime, running down in the
    order 6, 5, 4, 3 and otherwise in the order 3, 4, 5, 6. *)
Theorem one_call_per_regime mc mb mt sel a b x :
  follows sel (if py_gt a b then [6; 5; 4; 3] else [3; 4; 5; 6])
    (calls (_rg_evolve_sm_traced mc mb mt sel a b x)) /\
  (List.length (calls (_rg_evolve_sm_traced mc mb mt sel a b x)) <= 4)%nat.
Proof.
  unfold _rg_evolve_sm_traced.
  destruct (py_gt a b); [| destruct (py_lt a b)];
    unfold_driver; repeat branch; (split; [solve_follows | cbn; lia]).
Qed.

(** X2. The vector is passed along correctly in both directions: the first
    invocation integrates [initial_condition] from [scale_in], each later one
    integrates the vector the solver returned for the one before, nothing is
    invoked after a failure, and the value returned is what the last
    invocation returned. *)
Theorem vector_carried_forward mc mb mt sel a b x :
  carried x (calls (_rg_evolve_sm_traced mc mb mt sel a b x)) /\
  match calls (_rg_evolve_sm_traced mc mb mt sel a b x) with
  | c :: _ => call_from c = a
  | [] => True
  end /\
  match result (_rg_evolve_sm_traced mc mb mt sel a b x) with
  | inr (_, v) =>
      calls (_rg_evolve_sm_traced mc mb mt sel a b x) <> [] /\
      replay x (calls (_rg_evolve_sm_traced mc mb mt sel a b x)) = inr v
  | inl (SolverError e) =>
      replay x (calls (_rg_evolve_sm_traced mc mb mt sel a b x)) = inl (SolverError e)
  | inl _ => calls (_rg_evolve_sm_traced mc mb mt sel a b x) = []
  end.
Proof.
  unfold _rg_evolve_sm_traced.
  destruct (py_gt a b); [| destruct (py_lt a b)];
    unfold_driver; repeat solved_or_branch;
    repeat split; try reflexivity; discriminate.
Qed.

End Loops.

Section Endpoints.
Context {X : Externals}.

Lemma py_max_nonterminal_above (th out : float) :
  is_nan th = false -> is_nan out = false ->
  py_eq (py_max th out) out = false -> py_lt out th = true.
Proof.
  intros Nth Nout H. destruct (py_lt th out) eqn:E.
  - rewrite (py_max_lt _ _ E), (py_eq_refl _ Nout) in H. discriminate.
  - rewrite (py_max_ge _ _ E) in H.
    destruct (py_neq_cases th out Nth Nout H) as [L | L]; [congruence | exact L].
Qed.

Lemma py_lt_irrefl (a : float) : py_lt a a = true -> False.
Proof. intros H. pose proof (py_lt_asym _ _ H). congruence. Qed.

(** Turn the failed tests of an unfolded downward run into strict
    inequalities. *)
Ltac descend_facts :=
  repeat match goal with
  | H : py_le ?a ?th = false |- _ =>
      pose proof (py_not_le_gt a th ltac:(notnan) ltac:(notnan) H); clear H
  | H : py_eq (py_max ?th ?b) ?b = false |- _ =>
      pose proof (py_max_nonterminal_above th b ltac:(notnan) ltac:(notnan) H); clear H
  end.

Ltac absurd_order :=
  match goal with
  | H : py_lt ?a ?a = true |- _ => destruct (py_lt_irrefl a H)
  end.

(** Decide [py_lt (max th b) from] from the inequalities of the context. *)
Ltac descends :=
  match goal with
  | |- py_lt (py_max ?th ?b) _ = true =>
      let E := fresh "Emax" in
      destruct (py_lt th b) eqn:E;
      [rewrite (py_max_lt th b E) | rewrite (py_max_ge th b E)];
      assumption
  end.

(** With thresholds in order, every segment of a downward run goes strictly
    down. *)
Lemma down_segments_descend mc mb mt sel a b x :
  well_formed mc mb mt = true ->
  py_gt a b = true ->
  Forall (fun c => py_lt (call_to c) (call_from c) = true)
         (calls (_rg_evolve_sm_traced mc mb mt sel a b x)).
Proof.
  unfold well_formed. intros Hwf Hdown. split_bounds.
  unfold _rg_evolve_sm_traced. rewrite Hdown. unfold py_gt in Hdown.
  unfold_driver. repeat branch; cbn [calls snd fst List.app];
    descend_facts; saturate; try absurd_order;
    repeat (constructor; cbn [call_to call_from]); descends.
Qed.

(** X3. Running down, whatever the masses, the segments meet end to start:
    the first one starts at [scale_in], every later one starts at the scale
    the one before stopped at, and a return from within the loop comes from a
    segment that stopped at a scale equal to [scale_out].  With thresholds in
    order every segment moreover runs strictly downward, so that the path has
    no gap and no overlap. *)
Theorem down_path_contiguous mc mb mt sel a b x :
  py_gt a b = true ->
  chained (calls (_rg_evolve_sm_traced mc mb mt sel a b x)) /\
  match calls (_rg_evolve_sm_traced mc mb mt sel a b x) with
  | c :: _ => call_from c = a
  | [] => True
  end /\
  (forall v, result (_rg_evolve_sm_traced mc mb mt sel a b x) = inr (In_loop, v) ->
     exists c, last_call (calls (_rg_evolve_sm_traced mc mb mt sel a b x)) = Some c /\
               py_eq (call_to c) b = true) /\
  (well_formed mc mb mt = true ->
   Forall (fun c => py_lt (call_to c) (call_from c) = true)
          (calls (_rg_evolve_sm_traced mc mb mt sel a b x))).
Proof.
  intros Hdown.
  assert (Hdescend : well_formed mc mb mt = true ->
            Forall (fun c => py_lt (call_to c) (call_from c) = true)
                   (calls (_rg_evolve_sm_traced mc mb mt sel a b x)))
    by (intros Hwf; apply down_segments_descend; assumption).
  revert Hdescend. generalize (well_formed mc mb mt). intros wf.
  unfold _rg_evolve_sm_traced. rewrite Hdown.
  unfold_driver. repeat branch; cbn; intros Hdescend;
    (split; [auto using py_max_nonterminal |]);
    (split; [reflexivity |]);
    (split; [| exact Hdescend]);
    intros w Hw; try discriminate Hw;
    eexists; (split; [reflexivity | assumption]).
Qed.

(** Without that order the segments of a downward run can overlap: with a
    charm mass 5.0 above the bottom mass 3.0, from 10.0 down to 2.0 the code
    integrates from 10.0 to 3.0, then from 3.0 up to 5.0, then from 5.0 to
    2.0. *)
Lemma unordered_masses_overlap :
  py_gt lit_10 lit_2 = true /\
  well_formed lit_5 lit_3 lit_173 = false /\
  py_lt lit_3 lit_5 = true /\
  calls (@_rg_evolve_sm_traced (Probe 0) lit_5 lit_3 lit_173 tt lit_10 lit_2 []) =
    [@Call (Probe 0) [] 5 lit_10 lit_3;
     @Call (Probe 0) [lit_3] 4 lit_3 lit_5;
     @Call (Probe 0) [lit_3; lit_5] 3 lit_5 lit_2].
Proof. repeat split; reflexivity. Qed.

(** X4. Running up, a return from within the loop also comes from a segment
    that stopped at a scale equal to [scale_out] (only the start scales of the
    later segments are off). *)
Theorem up_path_ends_at_target mc mb mt sel a b x v :
  py_lt a b = true ->
  result (_rg_evolve_sm_traced mc mb mt sel a b x) = inr (In_loop, v) ->
  exists c, last_call (calls (_rg_evolve_sm_traced mc mb mt sel a b x)) = Some c /\
            py_eq (call_to c) b = true.
Proof.
  intros Hup. unfold _rg_evolve_sm_traced.
  replace (py_gt a b) with false
    by (symmetry; unfold py_gt; apply py_lt_asym; exact Hup).
  rewrite Hup.
  unfold_driver. repeat branch; cbn;
    intros Hw; try discriminate Hw;
    eexists; (split; [reflexivity | assumption]).
Qed.

(** X5. Called directly with a target below 0.1 (the guard is in
    [rg_evolve_sm], not here), from a start above 0.1 and with thresholds in
    order, the function never returns from within the loops: regime 3 runs
    down to 0.1 only, and the [return sol] after the loops hands back the
    vector at 0.1 as if it were the vector at [scale_out]. *)
Theorem below_floor_returns_vector_at_floor mc mb mt sel a b x :
  well_formed mc mb mt = true ->
  py_lt lit_0_1 a = true ->
  py_lt b lit_0_1 = true ->
  match result (_rg_evolve_sm_traced mc mb mt sel a b x) with
  | inr (ep, v) =>
      ep = After_loops /\
      exists c, last_call (calls (_rg_evolve_sm_traced mc mb mt sel a b x)) = Some c /\
                call_rhs c = select sel 3 /\ call_to c = lit_0_1
  | inl (SolverError e) => True
  | inl _ => False
  end.
Proof.
  unfold well_formed. intros Hwf Ha Hb. split_bounds. saturate.
  unfold _rg_evolve_sm_traced.
  replace (py_gt a b) with true by (symmetry; order).
  unfold_driver. settle_stop. repeat settle. repeat branch; cbn;
    try exact I; (split; [reflexivity |]); eexists; repeat split.
Qed.

(** X6. Called directly to run down from a start at or below 0.1, with
    thresholds in order, no regime is entered: no solver invocation is made
    and the [return sol] after the loops raises a name error, [sol] being
    unbound. *)
Theorem down_from_floor_is_a_name_error mc mb mt sel a b x :
  well_formed mc mb mt = true ->
  py_gt a b = true ->
  py_le a lit_0_1 = true ->
  _rg_evolve_sm_traced mc mb mt sel a b x = (inl UnboundLocalError, []).
Proof.
  unfold well_formed. intros Hwf Hdown Ha. split_bounds. saturate.
  unfold _rg_evolve_sm_traced.
  replace (py_gt a b) with true by (symmetry; order).
  unfold_driver. repeat settle. reflexivity.
Qed.

End Endpoints.

(** ** Scales that sit on a threshold *)

Section OnThreshold.
Context {X : Externals}.

Ltac regime_cases H :=
  destruct (inside_regime _ _ _ _ _ H) as [-> | [-> | [-> | ->]]].

Ltac reflexive_bounds lo hi :=
  assert (py_le lo lo = true) by (apply py_le_refl; notnan);
  assert (py_le hi hi = true) by (apply py_le_refl; notnan).

(** X7. With thresholds in order, running from strictly inside a regime to
    exactly one of its two thresholds is a single invocation in that regime
    which stops at the threshold and returns from within the loop: no segment
    of zero length is run in the regime beyond. *)
Theorem stops_at_threshold mc mb mt sel x nf a lo hi :
  well_formed mc mb mt = true ->
  inside mc mb mt nf a = true ->
  lookup Z.eqb (thresholds mc mb mt) nf = Some lo ->
  lookup Z.eqb (thresholds mc mb mt) (nf + 1) = Some hi ->
  _rg_evolve_sm_traced mc mb mt sel a lo x =
    (s <- rg_evolve x (select sel nf) a lo ;; ret (In_loop, s)) /\
  _rg_evolve_sm_traced mc mb mt sel a hi x =
    (s <- rg_evolve x (select sel nf) a hi ;; ret (In_loop, s)).
Proof.
  unfold well_formed. intros Hwf Ha Hlo Hhi.
  regime_cases Ha; unfold inside in Ha; cbn in Ha, Hlo, Hhi;
    injection Hlo as <-; injection Hhi as <-; split_bounds;
    match goal with
    | H1 : py_lt ?l a = true, H2 : py_lt a ?h = true |- _ => reflexive_bounds l h
    end;
    saturate; split; unfold _rg_evolve_sm_traced.
  all: try (replace (py_gt a lit_0_1) with true by (symmetry; order)).
  all: try (replace (py_gt a mc) with true by (symmetry; order)).
  all: try (replace (py_gt a mb) with true by (symmetry; order)).
  all: try (replace (py_gt a mt) with true by (symmetry; order)).
  all: try (replace (py_gt a mc) with false by (symmetry; order);
            replace (py_lt a mc) with true by (symmetry; order)).
  all: try (replace (py_gt a mb) with false by (symmetry; order);
            replace (py_lt a mb) with true by (symmetry; order)).
  all: try (replace (py_gt a mt) with false by (symmetry; order);
            replace (py_lt a mt) with true by (symmetry; order)).
  all: try (replace (py_gt a np_inf) with false by (symmetry; order);
            replace (py_lt a np_inf) with true by (symmetry; order)).
  all: unfold_driver; settle_stop; repeat settle; repeat branch; reflexivity.
Qed.

(** X8. With thresholds in order, a start scale that sits exactly on a
    threshold belongs to the regime on the side it runs into: running down
    from the upper threshold of a regime, or up from its lower threshold, to a
    scale strictly inside it is a single invocation in that regime, the regime
    on the other side of the threshold being skipped. *)
Theorem starts_at_threshold mc mb mt sel x nf b lo hi :
  well_formed mc mb mt = true ->
  inside mc mb mt nf b = true ->
  lookup Z.eqb (thresholds mc mb mt) nf = Some lo ->
  lookup Z.eqb (thresholds mc mb mt) (nf + 1) = Some hi ->
  _rg_evolve_sm_traced mc mb mt sel hi b x =
    (s <- rg_evolve x (select sel nf) hi b ;; ret (In_loop, s)) /\
  _rg_evolve_sm_traced mc mb mt sel lo b x =
    (s <- rg_evolve x (select sel nf) lo b ;; ret (In_loop, s)).
Proof.
  unfold well_formed. intros Hwf Hb Hlo Hhi.
  regime_cases Hb; unfold inside in Hb; cbn in Hb, Hlo, Hhi;
    injection Hlo as <-; injection Hhi as <-; split_bounds;
    match goal with
    | H1 : py_lt ?l b = true, H2 : py_lt b ?h = true |- _ => reflexive_bounds l h
    end;
    saturate; split; unfold _rg_evolve_sm_traced.
  all: try (replace (py_gt mc b) with true by (symmetry; order)).
  all: try (replace (py_gt mb b) with true by (symmetry; order)).
  all: try (replace (py_gt mt b) with true by (symmetry; order)).
  all: try (replace (py_gt np_inf b) with true by (symmetry; order)).
  all: try (replace (py_gt lit_0_1 b) with false by (symmetry; order);
            replace (py_lt lit_0_1 b) with true by (symmetry; order)).
  all: try (replace (py_gt mc b) with false by (symmetry; order);
            replace (py_lt mc b) with true by (symmetry; order)).
  all: try (replace (py_gt mb b) with false by (symmetry; order);
            replace (py_lt mb b) with true by (symmetry; order)).
  all: try (replace (py_gt mt b) with false by (symmetry; order);
            replace (py_lt mt b) with true by (symmetry; order)).
  all: unfold_driver; settle_stop; repeat settle; repeat branch; reflexivity.
Qed.

End OnThreshold.

(** ** The public entry point *)

Section Public.
Context {X : Externals}.

(** The four ways through [rg_evolve_sm], the same for every cache. *)
Lemma rg_evolve_sm_paths x (par : params) sel a b :
  (forall c : cache, rg_evolve_sm x par sel a b c = ((inr x, []), c)) \/
  (forall c : cache,
     rg_evolve_sm x par sel a b c = ((inl (ValueError below_strange), []), c)) \/
  (forall c : cache, rg_evolve_sm x par sel a b c = ((inl KeyError, []), c)) \/
  exists mc mb mt,
    forall c : cache,
      rg_evolve_sm x par sel a b c = _rg_evolve_sm x mc mb mt sel a b c.
Proof.
  destruct (py_eq a b) eqn:Hne.
  { left. intros c. unfold rg_evolve_sm. rewrite Hne. reflexivity. }
  destruct (py_lt b lit_0_1) eqn:Hfloor.
  { right; left. intros c. unfold rg_evolve_sm. rewrite Hne, Hfloor. reflexivity. }
  destruct (lookup par_key_eqb par (mass "c")) as [mc |] eqn:Pc.
  2: { right; right; left. intros c. unfold rg_evolve_sm, lift, getitem.
       rewrite Hne, Hfloor. cbn. rewrite Pc. reflexivity. }
  destruct (lookup par_key_eqb par (mass "b")) as [mb |] eqn:Pb.
  2: { right; right; left. intros c. unfold rg_evolve_sm, lift, getitem.
       rewrite Hne, Hfloor. cbn. rewrite Pc. cbn. rewrite Pb. reflexivity. }
  destruct (lookup par_key_eqb par (mass "t")) as [mt |] eqn:Pt.
  2: { right; right; left. intros c. unfold rg_evolve_sm, lift, getitem.
       rewrite Hne, Hfloor. cbn. rewrite Pc. cbn. rewrite Pb. cbn. rewrite Pt.
       reflexivity. }
  right; right; right. exists mc, mb, mt. intros c.
  apply rg_evolve_sm_guarded; assumption.
Qed.

(** X9. Past the two guards, a parameter dict that lacks one of the masses of
    c, b and t makes [rg_evolve_sm] raise a KeyError before any integration,
    the cache untouched. *)
Theorem missing_mass_is_a_KeyError x (par : params) sel a b (c : cache) :
  py_eq a b = false ->
  py_lt b lit_0_1 = false ->
  lookup par_key_eqb par (mass "c") = None \/
  lookup par_key_eqb par (mass "b") = None \/
  lookup par_key_eqb par (mass "t") = None ->
  rg_evolve_sm x par sel a b c = ((inl KeyError, []), c).
Proof.
  intros Hne Hfloor Hmissing. unfold rg_evolve_sm, lift, getitem.
  rewrite Hne, Hfloor. cbn.
  destruct (lookup par_key_eqb par (mass "c")) as [mc |]; [| reflexivity]. cbn.
  destruct (lookup par_key_eqb par (mass "b")) as [mb |]; [| reflexivity]. cbn.
  destruct (lookup par_key_eqb par (mass "t")) as [mt |]; [| reflexivity].
  destruct Hmissing as [H | [H | H]]; discriminate H.
Qed.

(** X10. Whatever the cache holds, once a call of [rg_evolve_sm] has returned
    [v], the same call made again returns [v] without invoking the solver. *)
Theorem repeated_call_is_free x (par : params) sel a b (c : cache) v :
  result (fst (rg_evolve_sm x par sel a b c)) = inr v ->
  fst (rg_evolve_sm x par sel a b (snd (rg_evolve_sm x par sel a b c))) = (inr v, []).
Proof.
  destruct (rg_evolve_sm_paths x par sel a b)
    as [H | [H | [H | [mc [mb [mt H]]]]]]; rewrite !H; cbn; try discriminate.
  - intros [= ->]. reflexivity.
  - intros Hv. unfold _rg_evolve_sm in *.
    apply (lru_stores maxsize _rg_evolve_sm_wrapped) in Hv.
    rewrite (lru_hit _ _ _ _ _ Hv). reflexivity.
Qed.

Lemma nan_unordered (a b : float) :
  is_nan a = true \/ is_nan b = true ->
  py_eq a b = false /\ py_lt a b = false /\ py_lt b a = false.
Proof.
  unfold py_eq, py_lt, SFeqb, SFltb.
  intros [H | H];
    destruct a as [[|]|[|]| |[|] ? ?], b as [[|]|[|]| |[|] ? ?];
    try discriminate H; repeat split; reflexivity.
Qed.

(** On a sound cache the cached driver returns what the function under the
    decorator returns. *)
Lemma _rg_evolve_sm_result x mc mb mt sel a b (c : cache) :
  cache_inv maxsize _rg_evolve_sm_wrapped c ->
  result (fst (_rg_evolve_sm x mc mb mt sel a b c)) =
  result (_rg_evolve_sm_wrapped (Key x mc mb mt sel a b)).
Proof. intros Hinv. unfold _rg_evolve_sm. apply lru_result, Hinv. Qed.

(** X11. A NaN scale is not rejected: with the masses in the parameter dict
    and a target that does not compare below 0.1, a call whose start or target
    scale is a NaN takes neither loop and ends in the [return sol] after them,
    a name error, without any solver invocation. *)
Theorem nan_scale_is_a_name_error x (par : params) sel a b mc mb mt (ks : list key) :
  is_nan a = true \/ is_nan b = true ->
  py_lt b lit_0_1 = false ->
  lookup par_key_eqb par (mass "c") = Some mc ->
  lookup par_key_eqb par (mass "b") = Some mb ->
  lookup par_key_eqb par (mass "t") = Some mt ->
  fst (rg_evolve_sm x par sel a b (process ks)) = (inl UnboundLocalError, []).
Proof.
  intros Hnan Hfloor Pc Pb Pt.
  destruct (nan_unordered a b Hnan) as [Hne [Hlt Hgt]].
  rewrite (rg_evolve_sm_guarded x par sel a b mc mb mt) by assumption.
  assert (Hbody : _rg_evolve_sm_wrapped (Key x mc mb mt sel a b)
                  = (inl UnboundLocalError, [])).
  { unfold _rg_evolve_sm_wrapped, _rg_evolve_sm_traced.
    cbn [k_mc k_mb k_mt k_rhs k_in k_out k_initial].
    unfold py_gt. rewrite Hgt, Hlt. reflexivity. }
  destruct (lookup key_eqb (process ks) (Key x mc mb mt sel a b)) as [v |] eqn:Hc.
  - destruct (process_inv ks) as [_ [_ Hsound]].
    apply Hsound in Hc. rewrite Hbody in Hc. discriminate Hc.
  - rewrite (_rg_evolve_sm_miss _ _ _ _ _ _ _ _ Hc). exact Hbody.
Qed.

End Public.

(** ** Running couplings *)

Section Couplings.
Context {X : Externals}.

Lemma bind_getitem_Some {K A B} (eqb : K -> K -> bool) (d : list (K * A)) k a
    (f : A -> M B) (c : cache) :
  lookup eqb d k = Some a ->
  bind (lift (getitem eqb d k)) f c = f a c.
Proof.
  intros H. unfold lift, getitem. cbn. rewrite H. cbn.
  destruct (f a c) as [[r l] c']. reflexivity.
Qed.

Lemma bind_getitem_None {K A B} (eqb : K -> K -> bool) (d : list (K * A)) k
    (f : A -> M B) (c : cache) :
  lookup eqb d k = None ->
  bind (lift (getitem eqb d k)) f c = ((inl KeyError, []), c).
Proof. intros H. unfold lift, getitem. cbn. rewrite H. reflexivity. Qed.

(** X12. Asked for the couplings at the reference scale itself, [get_alpha]
    returns the reference values of the parameter dict unchanged, invokes no
    solver and leaves the cache alone; the quark masses need not even be in
    the dict. *)
Theorem get_alpha_at_reference_scale bf (par : params) scale a_s a_e mz (c : cache) :
  lookup par_key_eqb par (Name "alpha_s") = Some a_s ->
  lookup par_key_eqb par (Name "alpha_e") = Some a_e ->
  lookup par_key_eqb par (mass "Z") = Some mz ->
  py_eq mz scale = true ->
  get_alpha bf par scale c =
  ((inr [("alpha_s"%string, a_s); ("alpha_e"%string, a_e)], []), c).
Proof.
  intros Ps Pe Pz Heq. unfold get_alpha.
  rewrite (bind_getitem_Some _ _ _ _ _ _ Ps).
  rewrite (bind_getitem_Some _ _ _ _ _ _ Pe).
  rewrite (bind_getitem_Some _ _ _ _ _ _ Pz).
  unfold rg_evolve_sm. rewrite Heq. reflexivity.
Qed.

(** X13. If the parameter dict lacks ['alpha_s'], ['alpha_e'] or
    [('mass','Z')], [get_alpha] raises a KeyError for every scale, also one
    below 0.1, with no solver invocation and the cache untouched. *)
Theorem get_alpha_missing_reference bf (par : params) scale (c : cache) :
  lookup par_key_eqb par (Name "alpha_s") = None \/
  lookup par_key_eqb par (Name "alpha_e") = None \/
  lookup par_key_eqb par (mass "Z") = None ->
  get_alpha bf par scale c = ((inl KeyError, []), c).
Proof.
  intros Hmissing. unfold get_alpha.
  destruct (lookup par_key_eqb par (Name "alpha_s")) as [a_s |] eqn:Ps;
    [rewrite (bind_getitem_Some _ _ _ _ _ _ Ps)
    | rewrite (bind_getitem_None _ _ _ _ _ Ps); reflexivity].
  destruct (lookup par_key_eqb par (Name "alpha_e")) as [a_e |] eqn:Pe;
    [rewrite (bind_getitem_Some _ _ _ _ _ _ Pe)
    | rewrite (bind_getitem_None _ _ _ _ _ Pe); reflexivity].
  destruct (lookup par_key_eqb par (mass "Z")) as [mz |] eqn:Pz;
    [| rewrite (bind_getitem_None _ _ _ _ _ Pz); reflexivity].
  destruct Hmissing as [H | [H | H]]; discriminate H.
Qed.

(** X14. With the three reference entries in the dict, a scale below 0.1 that
    is not the reference scale makes [get_alpha] raise the ValueError of the
    strange threshold, with no solver invocation. *)
Theorem get_alpha_below_floor bf (par : params) scale a_s a_e mz (c : cache) :
  lookup par_key_eqb par (Name "alpha_s") = Some a_s ->
  lookup par_key_eqb par (Name "alpha_e") = Some a_e ->
  lookup par_key_eqb par (mass "Z") = Some mz ->
  py_eq mz scale = false ->
  py_lt scale lit_0_1 = true ->
  get_alpha bf par scale c = ((inl (ValueError below_strange), []), c).
Proof.
  intros Ps Pe Pz Hne Hlow. unfold get_alpha.
  rewrite (bind_getitem_Some _ _ _ _ _ _ Ps).
  rewrite (bind_getitem_Some _ _ _ _ _ _ Pe).
  rewrite (bind_getitem_Some _ _ _ _ _ _ Pz).
  unfold rg_evolve_sm. rewrite Hne, Hlow. reflexivity.
Qed.

(** The loops return a vector as long as the one they were given, when the
    solver does. *)
Lemma traced_length mc mb mt sel a b x ep v :
  length_preserving ->
  result (_rg_evolve_sm_traced mc mb mt sel a b x) = inr (ep, v) ->
  List.length v = List.length x.
Proof.
  intros Hlen. unfold _rg_evolve_sm_traced.
  destruct (py_gt a b); [| destruct (py_lt a b)];
    unfold_driver; repeat branch;
    intros E; try discriminate E; injection E as <- <-;
    repeat match goal with
    | H : odeint _ _ _ = inr _ |- _ => apply Hlen in H; cbn [snd] in H
    end;
    congruence.
Qed.

Lemma rg_evolve_sm_length x (par : params) sel a b (c : cache) v :
  length_preserving ->
  cache_inv maxsize _rg_evolve_sm_wrapped c ->
  result (fst (rg_evolve_sm x par sel a b c)) = inr v ->
  List.length v = List.length x.
Proof.
  intros Hlen Hinv.
  destruct (rg_evolve_sm_paths x par sel a b)
    as [H | [H | [H | [mc [mb [mt H]]]]]]; rewrite H; cbn; try discriminate.
  - intros [= ->]. reflexivity.
  - rewrite (_rg_evolve_sm_result _ _ _ _ _ _ _ _ Hinv), wrapped_traced.
    cbn [k_mc k_mb k_mt k_rhs k_in k_out k_initial result fst].
    destruct (result (_rg_evolve_sm_traced mc mb mt sel a b x)) as [e | [ep w]] eqn:R;
      [discriminate |].
    intros [= <-]. eapply traced_length; eassumption.
Qed.

Lemma rg_evolve_sm_inv x (par : params) sel a b (c : cache) :
  cache_inv maxsize _rg_evolve_sm_wrapped c ->
  cache_inv maxsize _rg_evolve_sm_wrapped (snd (rg_evolve_sm x par sel a b c)).
Proof.
  intros Hinv.
  destruct (rg_evolve_sm_paths x par sel a b)
    as [H | [H | [H | [mc [mb [mt H]]]]]]; rewrite H; cbn [snd]; try exact Hinv.
  unfold _rg_evolve_sm. apply lru_inv; [exact maxsize_positive | exact Hinv].
Qed.

(** X15. With a solver that returns rows as long as the vector it is given,
    and whatever calls the process has made before, a vector returned by
    [rg_evolve_sm] is as long as [initial_condition]. *)
Theorem evolution_preserves_length x (par : params) sel a b (ks : list key) v :
  length_preserving ->
  result (fst (rg_evolve_sm x par sel a b (process ks))) = inr v ->
  List.length v = List.length x.
Proof.
  intros Hlen. apply rg_evolve_sm_length; [exact Hlen | apply process_inv].
Qed.

Lemma get_alpha_shape bf (par : params) scale (c : cache) d :
  length_preserving ->
  cache_inv maxsize _rg_evolve_sm_wrapped c ->
  result (fst (get_alpha bf par scale c)) = inr d ->
  exists v_s v_e, d = [("alpha_s"%string, v_s); ("alpha_e"%string, v_e)].
Proof.
  intros Hlen Hinv. unfold get_alpha.
  destruct (lookup par_key_eqb par (Name "alpha_s")) as [a_s |] eqn:Ps;
    [rewrite (bind_getitem_Some _ _ _ _ _ _ Ps)
    | rewrite (bind_getitem_None _ _ _ _ _ Ps); discriminate].
  destruct (lookup par_key_eqb par (Name "alpha_e")) as [a_e |] eqn:Pe;
    [rewrite (bind_getitem_Some _ _ _ _ _ _ Pe)
    | rewrite (bind_getitem_None _ _ _ _ _ Pe); discriminate].
  destruct (lookup par_key_eqb par (mass "Z")) as [mz |] eqn:Pz;
    [rewrite (bind_getitem_Some _ _ _ _ _ _ Pz)
    | rewrite (bind_getitem_None _ _ _ _ _ Pz); discriminate].
  rewrite result_bind_M.
  destruct (result (fst (rg_evolve_sm [a_s; a_e] par bf mz scale c)))
    as [e | v] eqn:R; [discriminate |].
  apply (rg_evolve_sm_length _ _ _ _ _ _ _ Hlen Hinv) in R.
  destruct v as [| v_s [| v_e [| ? ?]]]; try discriminate R.
  cbn. intros [= <-]. exists v_s, v_e. reflexivity.
Qed.

(** X16. With such a solver, whenever [get_alpha] returns, the dict it
    returns has exactly the two entries ['alpha_s'] and ['alpha_e']. *)
Theorem get_alpha_returns_both_couplings bf (par : params) scale (ks : list key) d :
  length_preserving ->
  result (fst (get_alpha bf par scale (process ks))) = inr d ->
  exists v_s v_e, d = [("alpha_s"%string, v_s); ("alpha_e"%string, v_e)].
Proof.
  intros Hlen. apply get_alpha_shape; [exact Hlen | apply process_inv].
Qed.

End Couplings.

(** ** Closures as selectors *)

Section Closures.
Context {X : Externals}.

Lemma lookup_Some_entry (c : cache) k v :
  lookup key_eqb c k = Some v -> In (k, v) c.
Proof.
  induction c as [| [k' v'] c IH]; cbn; [discriminate |].
  destruct (key_eqb k k') eqn:E.
  - apply key_eqb_eq in E. intros [= ->]. left. congruence.
  - intros H. right. apply IH, H.
Qed.

(** A call that passes the guards with scales that are not NaN invokes the
    solver at least once. *)
Lemma guarded_call_invokes_solver mc mb mt sel a b x :
  py_eq a b = false ->
  py_le lit_0_1 b = true ->
  is_nan a = false ->
  calls (_rg_evolve_sm_traced mc mb mt sel a b x) <> [].
Proof.
  intros Hne Hfloor Na.
  assert (Nb : is_nan b = false) by notnan.
  unfold _rg_evolve_sm_traced.
  destruct (py_gt a b) eqn:Hdown.
  - unfold py_gt in Hdown.
    assert (H3 : py_le a lit_0_1 = false)
      by (apply py_lt_not_ge; eapply py_le_lt_trans; eassumption).
    unfold_driver. rewrite H3. repeat branch; discriminate.
  - destruct (py_lt a b) eqn:Hup.
    + unfold_driver. repeat branch; discriminate.
    + unfold py_gt in Hdown.
      rewrite (py_neither_eq _ _ Na Nb Hup Hdown) in Hne. discriminate.
Qed.

(** X17. A selector that no cached key carries, as is the closure
    [derivative_nf] that [get_mq] and [get_wilson] build anew at every call,
    never hits the cache: past the guards the call runs the function under
    the decorator and, the scales not being NaN, invokes the solver. *)
Theorem new_closure_never_hits x (par : params) sel a b mc mb mt (c : cache) :
  unseen sel c ->
  py_eq a b = false ->
  py_lt b lit_0_1 = false ->
  is_nan a = false ->
  is_nan b = false ->
  lookup par_key_eqb par (mass "c") = Some mc ->
  lookup par_key_eqb par (mass "b") = Some mb ->
  lookup par_key_eqb par (mass "t") = Some mt ->
  fst (rg_evolve_sm x par sel a b c) = _rg_evolve_sm_wrapped (Key x mc mb mt sel a b) /\
  calls (fst (rg_evolve_sm x par sel a b c)) <> [].
Proof.
  intros Hnew Hne Hfloor Na Nb Pc Pb Pt.
  assert (Hmiss : lookup key_eqb c (Key x mc mb mt sel a b) = None).
  { destruct (lookup key_eqb c (Key x mc mb mt sel a b)) as [v |] eqn:E;
      [| reflexivity].
    apply lookup_Some_entry in E. elim (Hnew _ _ E). reflexivity. }
  rewrite (rg_evolve_sm_guarded x par sel a b mc mb mt c) by assumption.
  rewrite (_rg_evolve_sm_miss _ _ _ _ _ _ _ _ Hmiss).
  split; [reflexivity |].
  rewrite wrapped_traced. cbn [k_mc k_mb k_mt k_rhs k_in k_out k_initial calls snd].
  apply guarded_call_invokes_solver; try assumption.
  apply py_not_lt_ge; try assumption. reflexivity.
Qed.

End Closures.

(** ** Wilson coefficients and quark masses *)

Section WrapperProperties.
Context {X : Externals}.

Lemma strip_two (c_in : vector) (a_s a_e : float) :
  firstn (List.length (c_in ++ [a_s; a_e]) - 2) (c_in ++ [a_s; a_e]) = c_in.
Proof.
  rewrite length_app. cbn [List.length].
  replace (List.length c_in + 2 - 2)%nat with (List.length c_in + 0)%nat by lia.
  rewrite firstn_app_2. cbn. apply app_nil_r.
Qed.

Lemma snd_bind_M {A B} (m : M A) (k : A -> M B) (c : cache) :
  snd (bind m k c) =
  match result (fst (m c)) with
  | inl _ => snd (m c)
  | inr a => snd (k a (snd (m c)))
  end.
Proof.
  cbn. destruct (m c) as [[[e | a] l] c']; cbn; [reflexivity |].
  destruct (k a c') as [[r l'] c'']. reflexivity.
Qed.

Lemma bind_M_returned {A B} (m : M A) (k : A -> M B) (c c' : cache) a l :
  m c = ((inr a, l), c') ->
  bind m k c = (let '((r, l'), c'') := k a c' in ((r, l ++ l'), c'')).
Proof. intros H. cbn. rewrite H. reflexivity. Qed.

Lemma get_alpha_inv bf (par : params) scale (c : cache) :
  cache_inv maxsize _rg_evolve_sm_wrapped c ->
  cache_inv maxsize _rg_evolve_sm_wrapped (snd (get_alpha bf par scale c)).
Proof.
  intros Hinv. unfold get_alpha.
  destruct (lookup par_key_eqb par (Name "alpha_s")) as [a_s |] eqn:Ps;
    [rewrite (bind_getitem_Some _ _ _ _ _ _ Ps)
    | rewrite (bind_getitem_None _ _ _ _ _ Ps); exact Hinv].
  destruct (lookup par_key_eqb par (Name "alpha_e")) as [a_e |] eqn:Pe;
    [rewrite (bind_getitem_Some _ _ _ _ _ _ Pe)
    | rewrite (bind_getitem_None _ _ _ _ _ Pe); exact Hinv].
  destruct (lookup par_key_eqb par (mass "Z")) as [mz |] eqn:Pz;
    [rewrite (bind_getitem_Some _ _ _ _ _ _ Pz)
    | rewrite (bind_getitem_None _ _ _ _ _ Pz); exact Hinv].
  rewrite snd_bind_M.
  destruct (result (fst (rg_evolve_sm [a_s; a_e] par bf mz scale c)));
    apply rg_evolve_sm_inv, Hinv.
Qed.

(** X18. Evolved to the scale they are given at, Wilson coefficients come
    back unchanged: when [get_alpha] returns both couplings at [scale], which
    is not a NaN, [get_wilson] from [scale] to [scale] returns [c_in], the
    couplings appended and stripped again, with no solver invocation beyond
    those of [get_alpha]. *)
Theorem get_wilson_at_input_scale bf dnf (par : params) (c_in : vector) scale
    (c c' : cache) d l a_s a_e :
  is_nan scale = false ->
  get_alpha bf par scale c = ((inr d, l), c') ->
  lookup String.eqb d "alpha_s"%string = Some a_s ->
  lookup String.eqb d "alpha_e"%string = Some a_e ->
  get_wilson bf dnf par c_in scale scale c = ((inr c_in, l), c').
Proof.
  intros Hn Halpha Hs He. unfold get_wilson, coupling.
  rewrite (bind_M_returned _ _ _ _ _ _ Halpha).
  rewrite (bind_getitem_Some _ _ _ _ _ _ Hs).
  rewrite (bind_getitem_Some _ _ _ _ _ _ He).
  unfold rg_evolve_sm. rewrite (py_eq_refl _ Hn). cbn.
  rewrite strip_two, !app_nil_r. reflexivity.
Qed.

(** X19. With a solver that returns rows as long as the vector it is given,
    whatever [get_wilson] returns has as many components as [c_in]. *)
Theorem get_wilson_strips_couplings bf dnf (par : params) (c_in : vector) a b
    (ks : list key) out :
  length_preserving ->
  result (fst (get_wilson bf dnf par c_in a b (process ks))) = inr out ->
  List.length out = List.length c_in.
Proof.
  intros Hlen. pose proof (process_inv ks) as Hinv.
  pose proof (get_alpha_inv bf par a _ Hinv) as Hinv'.
  unfold get_wilson, coupling. rewrite result_bind_M.
  destruct (result (fst (get_alpha bf par a (process ks)))) as [e | d];
    [discriminate |].
  set (c1 := snd (get_alpha bf par a (process ks))) in *.
  destruct (lookup String.eqb d "alpha_s"%string) as [a_s |] eqn:Hs;
    [rewrite (bind_getitem_Some _ _ _ _ _ _ Hs)
    | rewrite (bind_getitem_None _ _ _ _ _ Hs); discriminate].
  destruct (lookup String.eqb d "alpha_e"%string) as [a_e |] eqn:He;
    [rewrite (bind_getitem_Some _ _ _ _ _ _ He)
    | rewrite (bind_getitem_None _ _ _ _ _ He); discriminate].
  rewrite result_bind_M.
  destruct (result (fst (rg_evolve_sm (c_in ++ [a_s; a_e]) par dnf a b c1)))
    as [e | sol] eqn:R; [discriminate |].
  apply (rg_evolve_sm_length _ _ _ _ _ _ _ Hlen Hinv') in R.
  rewrite length_app in R. cbn in R. cbn. intros [= <-].
  rewrite length_firstn. lia.
Qed.

End WrapperProperties.

Section Masses.
Context {X : Externals}.

Lemma bind_MW_returned {A B} (m : MW A) (k : A -> MW B) (c c' : cache) a l :
  m c = ((inr a, l), c') ->
  bind m k c = (let '((r, l'), c'') := k a c' in ((r, l ++ l'), c'')).
Proof. intros H. cbn. rewrite H. reflexivity. Qed.

Lemma from_M_returned {A} (m : M A) (c c' : cache) a l :
  m c = ((inr a, l), c') -> from_M m c = ((inr a, l), c').
Proof. intros H. unfold from_M. rewrite H. reflexivity. Qed.

Lemma from_M_getitem {K A} (eqb : K -> K -> bool) (d : list (K * A)) k a (c : cache) :
  lookup eqb d k = Some a ->
  from_M (lift (getitem eqb d k)) c = ((inr a, []), c).
Proof. intros H. unfold from_M, lift, getitem. rewrite H. reflexivity. Qed.

Lemma get_mq_identity bf dnf (par : params) m scale (c c' : cache) d l a_s :
  is_nan scale = false ->
  get_alpha bf par scale c = ((inr d, l), c') ->
  lookup String.eqb d "alpha_s"%string = Some a_s ->
  get_mq bf dnf par m scale scale c = ((inr m, l), c').
Proof.
  intros Hn Halpha Hs. unfold get_mq, coupling.
  rewrite (bind_MW_returned _ _ _ _ _ _ (from_M_returned _ _ _ _ _ Halpha)).
  rewrite (bind_MW_returned _ _ _ _ _ _ (from_M_getitem _ _ _ _ c' Hs)).
  assert (Hid : from_M (rg_evolve_sm [a_s; m] par dnf scale scale) c'
                = ((inr [a_s; m], []), c')).
  { apply from_M_returned. unfold rg_evolve_sm.
    rewrite (py_eq_refl _ Hn). reflexivity. }
  rewrite (bind_MW_returned _ _ _ _ _ _ Hid).
  cbn. rewrite app_nil_r. reflexivity.
Qed.

(** X20. Run to its own input scale, a quark mass comes back unchanged: when
    [get_alpha] returns ['alpha_s'] at [scale], which is not a NaN, [get_mq]
    from [scale] to [scale] returns [m_in] itself, with no solver invocation
    beyond those of [get_alpha]. *)
Theorem get_mq_at_input_scale bf dnf (par : params) m scale (c c' : cache) d l a_s :
  is_nan scale = false ->
  get_alpha bf par scale c = ((inr d, l), c') ->
  lookup String.eqb d "alpha_s"%string = Some a_s ->
  get_mq bf dnf par m scale scale c = ((inr m, l), c').
Proof. apply get_mq_identity. Qed.

(** X21. The b and c masses at their own scale: when the parameter dict
    holds the mass [m] and [get_alpha] returns ['alpha_s'] at the scale [m],
    [get_mb] (resp. [get_mc]) at the scale [m] returns [m]. *)
Theorem heavy_mass_at_own_scale bf dnf (par : params) m (c c' : cache) d l a_s :
  is_nan m = false ->
  get_alpha bf par m c = ((inr d, l), c') ->
  lookup String.eqb d "alpha_s"%string = Some a_s ->
  (lookup par_key_eqb par (mass "b") = Some m ->
   get_mb bf dnf par m c = ((inr m, l), c')) /\
  (lookup par_key_eqb par (mass "c") = Some m ->
   get_mc bf dnf par m c = ((inr m, l), c')).
Proof.
  intros Hn Halpha Hs.
  pose proof (get_mq_identity bf dnf par m m c c' d l a_s Hn Halpha Hs) as Hmq.
  split; intros Pm; unfold get_mb, get_mc;
    rewrite (bind_MW_returned _ _ _ _ _ _ (from_M_getitem _ _ _ _ c Pm));
    rewrite Hmq; reflexivity.
Qed.

(** X22. The u, d and s masses at 2.0, the scale they are given at: when
    [get_alpha] returns ['alpha_s'] at 2.0, [get_mu], [get_md] and [get_ms] at
    the scale 2.0 return the mass of the parameter dict. *)
Theorem light_mass_at_input_scale bf dnf (par : params) m (c c' : cache) d l a_s :
  get_alpha bf par lit_2 c = ((inr d, l), c') ->
  lookup String.eqb d "alpha_s"%string = Some a_s ->
  (lookup par_key_eqb par (mass "u") = Some m ->
   get_mu bf dnf par lit_2 c = ((inr m, l), c')) /\
  (lookup par_key_eqb par (mass "d") = Some m ->
   get_md bf dnf par lit_2 c = ((inr m, l), c')) /\
  (lookup par_key_eqb par (mass "s") = Some m ->
   get_ms bf dnf par lit_2 c = ((inr m, l), c')).
Proof.
  intros Halpha Hs.
  pose proof (get_mq_identity bf dnf par m lit_2 c c' d l a_s eq_refl Halpha Hs) as Hmq.
  repeat split; intros Pm; unfold get_mu, get_md, get_ms;
    rewrite (bind_MW_returned _ _ _ _ _ _ (from_M_getitem _ _ _ _ c Pm));
    rewrite Hmq; reflexivity.
Qed.

Lemma result_bind_MW {A B} (m : MW A) (k : A -> MW B) (c : cache) :
  fst (fst (bind m k c)) =
  match fst (fst (m c)) with
  | inl e => inl e
  | inr a => fst (fst (k a (snd (m c))))
  end.
Proof.
  cbn. destruct (m c) as [[[e | a] l] c']; cbn; [reflexivity |].
  destruct (k a c') as [[r l'] c'']. reflexivity.
Qed.

Lemma result_from_M {A} (m : M A) (c : cache) :
  fst (fst (from_M m c)) =
  match result (fst (m c)) with
  | inl e => inl (Raised e)
  | inr a => inr a
  end.
Proof. unfold from_M, result. destruct (m c) as [[[e | a] l] c']; reflexivity. Qed.

Lemma snd_from_M {A} (m : M A) (c : cache) : snd (from_M m c) = snd (m c).
Proof. unfold from_M. destruct (m c) as [[[e | a] l] c']; reflexivity. Qed.

(** X23. With a solver that returns rows as long as the vector it is given,
    the [sol[1]] of [get_mq] never raises an IndexError. *)
Theorem get_mq_never_IndexError bf dnf (par : params) m a b (ks : list key) :
  length_preserving ->
  fst (fst (get_mq bf dnf par m a b (process ks))) <> inl IndexError.
Proof.
  intros Hlen. pose proof (process_inv ks) as Hinv.
  pose proof (get_alpha_inv bf par a _ Hinv) as Hinv'.
  unfold get_mq, coupling.
  rewrite result_bind_MW, result_from_M, snd_from_M.
  destruct (result (fst (get_alpha bf par a (process ks)))) as [e | d];
    [discriminate |].
  set (c1 := snd (get_alpha bf par a (process ks))) in *.
  rewrite result_bind_MW, result_from_M, snd_from_M.
  unfold lift at 1 2, getitem.
  destruct (lookup String.eqb d "alpha_s"%string) as [a_s |]; cbn [result fst snd];
    [| discriminate].
  change (result (ret a_s)) with (@inr exn float a_s). cbv beta iota.
  rewrite result_bind_MW, result_from_M, snd_from_M.
  destruct (result (fst (rg_evolve_sm [a_s; m] par dnf a b c1))) as [e | sol] eqn:R;
    [discriminate |].
  apply (rg_evolve_sm_length _ _ _ _ _ _ _ Hlen Hinv') in R.
  destruct sol as [| s0 [| s1 sol]]; try discriminate R.
  discriminate.
Qed.

End Masses.

(** ** The further properties on concrete inputs *)

Lemma Frozen_length_preserving : @length_preserving Frozen.
Proof. intros d x t s [= <-]. reflexivity. Qed.

Lemma down_path_contiguous_witness :
  py_gt lit_10 lit_2 = true /\
  well_formed lit_1_27 lit_4_18 lit_173 = true /\
  chained (calls (@_rg_evolve_sm_traced (Probe 0) lit_1_27 lit_4_18 lit_173 tt
                    lit_10 lit_2 [])) /\
  Forall (fun c => py_lt (call_to c) (call_from c) = true)
         (calls (@_rg_evolve_sm_traced (Probe 0) lit_1_27 lit_4_18 lit_173 tt
                   lit_10 lit_2 [])).
Proof.
  do 2 (split; [reflexivity |]).
  destruct (@down_path_contiguous (Probe 0) lit_1_27 lit_4_18 lit_173 tt lit_10 lit_2 []
              eq_refl) as [Hchained [_ [_ Hdescend]]].
  split; [exact Hchained | exact (Hdescend eq_refl)].
Defined.

Lemma up_path_ends_at_target_witness :
  py_lt lit_2 lit_10 = true /\
  result (@_rg_evolve_sm_traced (Probe 0) lit_1_27 lit_4_18 lit_173 tt lit_2 lit_10 [])
    = inr (In_loop, [lit_4_18; lit_10]) /\
  exists c,
    last_call (calls (@_rg_evolve_sm_traced (Probe 0) lit_1_27 lit_4_18 lit_173 tt
                        lit_2 lit_10 [])) = Some c /\
    py_eq (call_to c) lit_10 = true.
Proof.
  do 2 (split; [reflexivity |]).
  apply (@up_path_ends_at_target (Probe 0) lit_1_27 lit_4_18 lit_173 tt lit_2 lit_10
           [] [lit_4_18; lit_10]); reflexivity.
Defined.

Lemma below_floor_returns_vector_at_floor_witness :
  well_formed lit_1_27 lit_4_18 lit_173 = true /\
  py_lt lit_0_1 lit_2 = true /\
  py_lt lit_0_05 lit_0_1 = true /\
  match result (@_rg_evolve_sm_traced (Probe 0) lit_1_27 lit_4_18 lit_173 tt
                  lit_2 lit_0_05 []) with
  | inr (ep, v) =>
      ep = After_loops /\
      exists c,
        last_call (calls (@_rg_evolve_sm_traced (Probe 0) lit_1_27 lit_4_18 lit_173 tt
                            lit_2 lit_0_05 [])) = Some c /\
        call_rhs c = @select (Probe 0) tt 3 /\ call_to c = lit_0_1
  | inl (SolverError e) => True
  | inl _ => False
  end.
Proof.
  do 3 (split; [reflexivity |]).
  apply (@below_floor_returns_vector_at_floor (Probe 0)); reflexivity.
Defined.

Lemma down_from_floor_is_a_name_error_witness :
  well_formed lit_1_27 lit_4_18 lit_173 = true /\
  py_gt lit_0_1 lit_0_05 = true /\
  py_le lit_0_1 lit_0_1 = true /\
  @_rg_evolve_sm_traced (Probe 0) lit_1_27 lit_4_18 lit_173 tt lit_0_1 lit_0_05 []
  = (inl UnboundLocalError, []).
Proof.
  do 3 (split; [reflexivity |]).
  apply (@down_from_floor_is_a_name_error (Probe 0)); reflexivity.
Defined.

Lemma stops_at_threshold_witness :
  well_formed lit_1_27 lit_4_18 lit_173 = true /\
  inside lit_1_27 lit_4_18 lit_173 5 lit_10 = true /\
  calls (@_rg_evolve_sm_traced (Probe 0) lit_1_27 lit_4_18 lit_173 tt
           lit_10 lit_4_18 []) = [@Call (Probe 0) [] 5 lit_10 lit_4_18] /\
  calls (@_rg_evolve_sm_traced (Probe 0) lit_1_27 lit_4_18 lit_173 tt
           lit_10 lit_173 []) = [@Call (Probe 0) [] 5 lit_10 lit_173].
Proof.
  do 2 (split; [reflexivity |]).
  destruct (@stops_at_threshold (Probe 0) lit_1_27 lit_4_18 lit_173 tt [] 5 lit_10
              lit_4_18 lit_173 eq_refl eq_refl eq_refl eq_refl) as [-> ->].
  split; reflexivity.
Defined.

Lemma starts_at_threshold_witness :
  well_formed lit_1_27 lit_4_18 lit_173 = true /\
  inside lit_1_27 lit_4_18 lit_173 4 lit_2 = true /\
  calls (@_rg_evolve_sm_traced (Probe 0) lit_1_27 lit_4_18 lit_173 tt
           lit_4_18 lit_2 []) = [@Call (Probe 0) [] 4 lit_4_18 lit_2] /\
  calls (@_rg_evolve_sm_traced (Probe 0) lit_1_27 lit_4_18 lit_173 tt
           lit_1_27 lit_2 []) = [@Call (Probe 0) [] 4 lit_1_27 lit_2].
Proof.
  do 2 (split; [reflexivity |]).
  destruct (@starts_at_threshold (Probe 0) lit_1_27 lit_4_18 lit_173 tt [] 4 lit_2
              lit_1_27 lit_4_18 eq_refl eq_refl eq_refl eq_refl) as [-> ->].
  split; reflexivity.
Defined.

Lemma missing_mass_is_a_KeyError_witness :
  py_eq lit_2 lit_10 = false /\ py_lt lit_10 lit_0_1 = false /\
  lookup par_key_eqb par_reference (mass "c") = None /\
  @rg_evolve_sm (Probe 0) [lit_3] par_reference tt lit_2 lit_10 [] =
  ((inl KeyError, []), []).
Proof.
  do 3 (split; [reflexivity |]).
  apply (@missing_mass_is_a_KeyError (Probe 0)); try reflexivity.
  left. reflexivity.
Defined.

Lemma repeated_call_is_free_witness :
  result (fst (@rg_evolve_sm (Probe 0) [] par_scenario tt lit_2 lit_3 [])) = inr [lit_3] /\
  fst (@rg_evolve_sm (Probe 0) [] par_scenario tt lit_2 lit_3
         (snd (@rg_evolve_sm (Probe 0) [] par_scenario tt lit_2 lit_3 []))) =
  (inr [lit_3], []).
Proof.
  split; [reflexivity |].
  apply (@repeated_call_is_free (Probe 0)). reflexivity.
Defined.

Lemma nan_scale_is_a_name_error_witness :
  is_nan S754_nan = true /\ py_lt lit_2 lit_0_1 = false /\
  fst (@rg_evolve_sm (Probe 0) [] par_scenario tt S754_nan lit_2 (process [])) =
  (inl UnboundLocalError, []).
Proof.
  do 2 (split; [reflexivity |]).
  apply (@nan_scale_is_a_name_error (Probe 0) [] par_scenario tt S754_nan lit_2
           lit_1_27 lit_4_18 lit_173 []); try reflexivity.
  left. reflexivity.
Defined.

Lemma get_alpha_at_reference_scale_witness :
  lookup par_key_eqb par_reference (mass "c") = None /\
  py_eq lit_91_1876 lit_91_1876 = true /\
  @get_alpha (Probe 0) tt par_reference lit_91_1876 [] =
  ((inr [("alpha_s"%string, lit_0_1185); ("alpha_e"%string, lit_alpha_e)], []), []).
Proof.
  do 2 (split; [reflexivity |]).
  apply (@get_alpha_at_reference_scale (Probe 0) tt par_reference lit_91_1876
           lit_0_1185 lit_alpha_e lit_91_1876 []); reflexivity.
Defined.

Lemma get_alpha_missing_reference_witness :
  lookup par_key_eqb [(mass "Z", lit_91_1876)] (Name "alpha_s") = None /\
  @get_alpha (Probe 0) tt [(mass "Z", lit_91_1876)] lit_0_05 [] =
  ((inl KeyError, []), []).
Proof.
  split; [reflexivity |].
  apply (@get_alpha_missing_reference (Probe 0)). left. reflexivity.
Defined.

Lemma get_alpha_below_floor_witness :
  py_eq lit_91_1876 lit_0_05 = false /\ py_lt lit_0_05 lit_0_1 = true /\
  @get_alpha (Probe 0) tt par_reference lit_0_05 [] =
  ((inl (ValueError below_strange), []), []).
Proof.
  do 2 (split; [reflexivity |]).
  apply (@get_alpha_below_floor (Probe 0) tt par_reference lit_0_05
           lit_0_1185 lit_alpha_e lit_91_1876 []); reflexivity.
Defined.

Lemma evolution_preserves_length_witness :
  @length_preserving Frozen /\
  result (fst (@rg_evolve_sm Frozen [lit_2; lit_3] par_scenario 0%nat lit_10 lit_2
                 (process []))) = inr [lit_2; lit_3] /\
  List.length [lit_2; lit_3] = List.length [lit_2; lit_3].
Proof.
  split; [exact Frozen_length_preserving |]. split; [reflexivity |].
  apply (@evolution_preserves_length Frozen [lit_2; lit_3] par_scenario 0%nat
           lit_10 lit_2 [] [lit_2; lit_3] Frozen_length_preserving).
  reflexivity.
Defined.

Lemma get_alpha_returns_both_couplings_witness :
  @length_preserving Frozen /\
  exists v_s v_e,
    [("alpha_s"%string, lit_0_1185); ("alpha_e"%string, lit_alpha_e)] =
    [("alpha_s"%string, v_s); ("alpha_e"%string, v_e)].
Proof.
  split; [exact Frozen_length_preserving |].
  apply (@get_alpha_returns_both_couplings Frozen 0%nat par_scenario lit_5 []
           _ Frozen_length_preserving).
  reflexivity.
Defined.

Lemma new_closure_never_hits_witness :
  let c := snd (@rg_evolve_sm Frozen [lit_2] par_scenario 0%nat lit_10 lit_5 []) in
  c <> [] /\
  @unseen Frozen 1%nat c /\
  calls (fst (@rg_evolve_sm Frozen [lit_2] par_scenario 1%nat lit_10 lit_5 c)) <> [].
Proof.
  assert (Hnew : @unseen Frozen 1%nat
            (snd (@rg_evolve_sm Frozen [lit_2] par_scenario 0%nat lit_10 lit_5 []))).
  { intros k v [E | []]. injection E as <- _. discriminate. }
  split; [discriminate |]. split; [exact Hnew |].
  apply (@new_closure_never_hits Frozen [lit_2] par_scenario 1%nat lit_10 lit_5
           lit_1_27 lit_4_18 lit_173 _ Hnew); reflexivity.
Defined.

Lemma get_wilson_at_input_scale_witness :
  @get_wilson Frozen 0%nat 1%nat par_scenario [lit_3; lit_8] lit_5 lit_5 [] =
  ((inr [lit_3; lit_8],
    calls (fst (@get_alpha Frozen 0%nat par_scenario lit_5 []))),
   snd (@get_alpha Frozen 0%nat par_scenario lit_5 [])).
Proof.
  apply (@get_wilson_at_input_scale Frozen 0%nat 1%nat par_scenario [lit_3; lit_8]
           lit_5 [] _
           [("alpha_s"%string, lit_0_1185); ("alpha_e"%string, lit_alpha_e)]
           _ lit_0_1185 lit_alpha_e); reflexivity.
Defined.

Lemma get_wilson_strips_couplings_witness :
  @length_preserving Frozen /\
  List.length [lit_3; lit_8; lit_10] = List.length [lit_3; lit_8; lit_10].
Proof.
  split; [exact Frozen_length_preserving |].
  apply (@get_wilson_strips_couplings Frozen 0%nat 1%nat par_scenario
           [lit_3; lit_8; lit_10] lit_5 lit_2 [] _ Frozen_length_preserving).
  reflexivity.
Defined.

Lemma get_mq_at_input_scale_witness :
  @get_mq Frozen 0%nat 1%nat par_full lit_0_095 lit_2 lit_2 [] =
  ((inr lit_0_095, calls (fst (@get_alpha Frozen 0%nat par_full lit_2 []))),
   snd (@get_alpha Frozen 0%nat par_full lit_2 [])).
Proof.
  apply (@get_mq_at_input_scale Frozen 0%nat 1%nat par_full lit_0_095 lit_2 [] _
           [("alpha_s"%string, lit_0_1185); ("alpha_e"%string, lit_alpha_e)]
           _ lit_0_1185); reflexivity.
Defined.

Lemma heavy_mass_at_own_scale_witness :
  lookup par_key_eqb par_full (mass "b") = Some lit_4_18 /\
  @get_mb Frozen 0%nat 1%nat par_full lit_4_18 [] =
  ((inr lit_4_18, calls (fst (@get_alpha Frozen 0%nat par_full lit_4_18 []))),
   snd (@get_alpha Frozen 0%nat par_full lit_4_18 [])).
Proof.
  split; [reflexivity |].
  apply (@heavy_mass_at_own_scale Frozen 0%nat 1%nat par_full lit_4_18 [] _
           [("alpha_s"%string, lit_0_1185); ("alpha_e"%string, lit_alpha_e)]
           _ lit_0_1185); reflexivity.
Defined.

Lemma light_mass_at_input_scale_witness :
  lookup par_key_eqb par_full (mass "s") = Some lit_0_095 /\
  @get_ms Frozen 0%nat 1%nat par_full lit_2 [] =
  ((inr lit_0_095, calls (fst (@get_alpha Frozen 0%nat par_full lit_2 []))),
   snd (@get_alpha Frozen 0%nat par_full lit_2 [])).
Proof.
  split; [reflexivity |].
  apply (@light_mass_at_input_scale Frozen 0%nat 1%nat par_full lit_0_095 [] _
           [("alpha_s"%string, lit_0_1185); ("alpha_e"%string, lit_alpha_e)]
           _ lit_0_1185); reflexivity.
Defined.

Lemma get_mq_never_IndexError_witness :
  @length_preserving Frozen /\
  fst (fst (@get_mq Frozen 0%nat 1%nat par_full lit_0_095 lit_2 lit_10 (process [])))
  <> inl IndexError.
Proof.
  split; [exact Frozen_length_preserving |].
  apply (@get_mq_never_IndexError Frozen); exact Frozen_length_preserving.
Defined.
